(** * joseph: lookup tables and task graph

    A shallow embedding of [database.py] (the FNDDS lookup object) and of
    [graph.py] (task nodes and the children-binding call), together with
    the ordering engine that the [Node] docstring announces.

    Python values that the methods inspect are modelled as they are used:
    optional keyword arguments are [option]s ([None] is Python's [None]),
    dictionaries are finite maps, objects live in a store indexed by
    their identity, and a raised exception is an explicit outcome. *)

From Stdlib Require Import ZArith List Permutation Lia.
From stdpp Require Import base option gmap strings list fin_maps relations.

Local Open Scope string_scope.
Set Warnings "-register-all".

(** ** Python outcomes *)

Module Py.

(** The exception classes the two files can raise. *)
Inductive exn : Type :=
  | ValueError (msg : string)
  | AssertionError (msg : string)
  | AttributeError
  | TypeError.

(** A call either returns a value or raises. *)
Inductive result (A : Type) : Type :=
  | Ret (a : A)
  | Raise (e : exn).

Arguments Ret {A} a.
Arguments Raise {A} e.

Definition bind {A B : Type} (r : result A) (k : A -> result B) : result B :=
  match r with
  | Ret a => k a
  | Raise e => Raise e
  end.

Definition raises {A : Type} (r : result A) : Prop :=
  exists e, r = Raise e.

Definition is_ValueError {A : Type} (r : result A) : Prop :=
  exists msg, r = Raise (ValueError msg).

(** Truth value of an optional string argument: [None] and the empty
    string are false, every other string is true. *)
Definition truthy (s : option string) : bool :=
  match s with
  | None => false
  | Some EmptyString => false
  | Some (String _ _) => true
  end.

(** [d.get(k)]: the value at [k], or [None]. The key itself may be
    [None] (the result of an inner [get]); the tables are keyed by
    strings and integers, so that key is absent. *)
Definition dict_get {K V : Type} `{Countable K}
    (d : gmap K V) (k : option K) : option V :=
  match k with
  | Some k' => d !! k'
  | None => None
  end.

(** [t.get(k)] on an attribute that is either a dictionary or still
    [None], in which case the attribute access raises. *)
Definition attr_get {K V : Type} `{Countable K}
    (t : option (gmap K V)) (k : option K) : result (option V) :=
  match t with
  | Some d => Ret (dict_get d k)
  | None => Raise AttributeError
  end.

End Py.

Notation "'let*' x := r 'in' k" := (Py.bind r (fun x => k))
  (at level 10, x name, r at level 100, k at level 200).

(** ** database.py *)

Module Database.
Import Py.

(** Identity of a list object in the store. *)
Definition ref := positive.

(** The store of list objects (the nutrient header and its copies). *)
Abbreviation store := (gmap ref (list string)).

(** The attributes of an [FnddsAPI] object. [__init__] sets each of them
    to [None]; a loaded object holds the tables. *)
Record FnddsAPI : Type := {
  _alias_to_food_code : option (gmap string Z);
  _food_code_to_food_name : option (gmap Z string);
  _food_name_to_alias : option (gmap string string);
  _nutrient_header : option ref;
  _food_unit_by_food_code : option (gmap Z string)
}.

(** [FnddsAPI.__init__] *)
Definition init : FnddsAPI := {|
  _alias_to_food_code := None;
  _food_code_to_food_name := None;
  _food_name_to_alias := None;
  _nutrient_header := None;
  _food_unit_by_food_code := None
|}.

Definition msg_food_code : string :=
  "Either alias or food_name must be provided.".
Definition msg_food_name : string :=
  "Either alias or food_code must be provided.".
Definition msg_food_alias : string :=
  "Either food_code or food_name must be provided.".

(** [FnddsAPI.get_food_code] *)
Definition get_food_code (self : FnddsAPI)
    (alias food_name : option string) : result (option Z) :=
  if truthy alias then
    attr_get (_alias_to_food_code self) alias
  else if truthy food_name then
    let* a := attr_get (_food_name_to_alias self) food_name in
    attr_get (_alias_to_food_code self) a
  else Raise (ValueError msg_food_code).

(** [FnddsAPI.get_food_name] *)
Definition get_food_name (self : FnddsAPI)
    (alias : option string) (food_code : option Z) : result (option string) :=
  match alias, food_code with
  | Some _, _ =>
      let* c := attr_get (_alias_to_food_code self) alias in
      attr_get (_food_code_to_food_name self) c
  | None, Some _ => attr_get (_food_code_to_food_name self) food_code
  | None, None => Raise (ValueError msg_food_name)
  end.

(** [FnddsAPI.get_food_alias] *)
Definition get_food_alias (self : FnddsAPI)
    (food_code : option Z) (food_name : option string)
    : result (option string) :=
  match food_code, food_name with
  | Some _, _ =>
      let* n := attr_get (_food_code_to_food_name self) food_code in
      attr_get (_food_name_to_alias self) n
  | None, Some _ => attr_get (_food_name_to_alias self) food_name
  | None, None => Raise (ValueError msg_food_alias)
  end.

(** [FnddsAPI.get_food_unit] (the first keyword is spelled [alist] in
    the source) *)
Definition get_food_unit (self : FnddsAPI)
    (alist : option string) (food_code : option Z)
    (food_name : option string) : result (option string) :=
  match food_code with
  | None =>
      let* c := get_food_code self alist food_name in
      attr_get (_food_unit_by_food_code self) c
  | Some _ => attr_get (_food_unit_by_food_code self) food_code
  end.

Section Series.

(** The nutrient vector. *)
Variable series : Type.

(** [self._get_food_nutrient_series] is called by the source but defined
    nowhere in it; it is a parameter of the embedding. *)
Variable _get_food_nutrient_series : FnddsAPI -> option Z -> result series.

(** [FnddsAPI.get_food_nutrient_series] *)
Definition get_food_nutrient_series (self : FnddsAPI)
    (alias : option string) (food_code : option Z)
    (food_name : option string) : result series :=
  match food_code with
  | None =>
      let* c := get_food_code self alias food_name in
      _get_food_nutrient_series self c
  | Some _ => _get_food_nutrient_series self food_code
  end.

End Series.

(** [list(x)]: a new list object holding the elements of [x]. The new
    identity is one the store does not use yet. *)
Definition list_copy (xs : list string) (st : store) : ref * store :=
  let r := fresh (dom st) in (r, <[r := xs]> st).

(** The [nutrient_header] property. [list(None)] raises [TypeError] and
    leaves the store as it was. A reference always denotes a live
    object, so a store that lacks the header's object is no state of the
    program; the embedding gives it the same failure. *)
Definition nutrient_header (self : FnddsAPI) (st : store)
    : result ref * store :=
  match _nutrient_header self with
  | None => (Raise TypeError, st)
  | Some h =>
      match st !! h with
      | None => (Raise TypeError, st)
      | Some xs => let '(r, st') := list_copy xs st in (Ret r, st')
      end
  end.

(** Any in-place change of the list object [r] ([append], item
    assignment, [clear], ...): its contents become [f] of the old ones. *)
Definition mutate (r : ref) (f : list string -> list string)
    (st : store) : store :=
  alter f r st.

(** How many of the identifying keyword arguments are not [None]. *)
Definition supplied {A : Type} (a : option A) : nat :=
  match a with Some _ => 1 | None => 0 end.

(** A loaded object with one food in each table, and the store that
    holds its header. *)
Definition sample : FnddsAPI := {|
  _alias_to_food_code := Some {[ "beef" := 23000100%Z ]};
  _food_code_to_food_name := Some {[ 23000100%Z := "Beef, NS as to cut" ]};
  _food_name_to_alias := Some {[ "Beef, NS as to cut" := "beef" ]};
  _nutrient_header := Some 1%positive;
  _food_unit_by_food_code := Some {[ 23000100%Z := "lb" ]}
|}.

Definition sample_store : store :=
  {[ 1%positive := ["Energy"; "Protein"] ]}.

(** [FnddsAPI.__init__] as it is called: the two file paths are
    accepted and not used, and every attribute starts as [None]. (The
    two data-frame attributes, also set to [None], are read by no
    method and are not part of the record.) *)
Definition __init__
    (nutrient_values_file_path portions_and_weight_file_path : option string)
    : FnddsAPI :=
  init.

End Database.

(** ** graph.py *)

Module Graph.
Import Py.

(** Identity of a [Node] object. *)
Definition node := positive.

(** The Python values [__call__] tells apart: a [Node], a list, a tuple,
    a dict, and objects of any other class ([None], numbers, strings,
    and [VObject] for an instance of a class named [cls], such as a
    set). *)
Inductive value : Type :=
  | VNode (n : node)
  | VList (xs : list value)
  | VTuple (xs : list value)
  | VDict (kvs : list (value * value))
  | VNone
  | VInt (z : Z)
  | VStr (s : string)
  | VObject (cls : string).

(** The pair [(_args, _kwargs)] stored in [_children]. *)
Definition children : Type := list value * list (string * value).

(** The attributes of a [Node] object. *)
Record Node : Type := {
  _children : option children;
  _parents : option (gset node)
}.

(** [Node.__init__] *)
Definition init : Node := {| _children := None; _parents := None |}.

(** One record handed to [logger.warning]: the format string and the
    node it is formatted with. *)
Definition record : Type := string * node.

(** The objects and the log. *)
Record state : Type := {
  heap : gmap node Node;
  log : list record
}.

(** The object behind an identity; an identity the heap does not list
    yet denotes a node as [__init__] leaves it. *)
Definition get_obj (h : gmap node Node) (n : node) : Node :=
  default init (h !! n).

Definition _invalid_msg : string :=
  "Invalid argument type. Expected Node or list/tuple/dict of Nodes.".

Definition msg_overwrite : string := "Overwriting children of node %s".

(** [isinstance(v, Node)] *)
Definition isinstance_Node (v : value) : bool :=
  match v with
  | VNode _ => true
  | _ => false
  end.

(** [arg.values()] *)
Definition values (kvs : list (value * value)) : list value := map snd kvs.

(** The [if]/[elif] chain applied to one argument: the argument is kept,
    the [assert] fails, or the [else] branch raises. *)
Definition check_arg (arg : value) : result value :=
  match arg with
  | VNode _ => Ret arg
  | VList xs | VTuple xs =>
      if forallb isinstance_Node xs then Ret arg
      else Raise (AssertionError _invalid_msg)
  | VDict kvs =>
      if forallb isinstance_Node (values kvs) then Ret arg
      else Raise (AssertionError _invalid_msg)
  | VNone | VInt _ | VStr _ | VObject _ => Raise (ValueError _invalid_msg)
  end.

(** [for arg in args: ...], with [_args] the list built so far. *)
Fixpoint loop_args (args : list value) (_args : list value)
    : result (list value) :=
  match args with
  | [] => Ret _args
  | arg :: rest =>
      let* v := check_arg arg in
      loop_args rest (_args ++ [v])
  end.

(** [d[key] = v] on an insertion-ordered dict. *)
Fixpoint dict_set (key : string) (v : value) (d : list (string * value))
    : list (string * value) :=
  match d with
  | [] => [(key, v)]
  | (k, w) :: rest =>
      if String.eqb k key then (k, v) :: rest
      else (k, w) :: dict_set key v rest
  end.

(** [for key, value in kwargs.items(): ...] *)
Fixpoint loop_kwargs (kwargs : list (string * value))
    (_kwargs : list (string * value)) : result (list (string * value)) :=
  match kwargs with
  | [] => Ret _kwargs
  | (key, v) :: rest =>
      let* w := check_arg v in
      loop_kwargs rest (dict_set key w _kwargs)
  end.

(** [logger.warning(fmt, n)] *)
Definition warning (fmt : string) (n : node) (st : state) : state :=
  {| heap := heap st; log := log st ++ [(fmt, n)] |}.

(** [self._children = c] *)
Definition set_children (self : node) (c : children) (st : state) : state :=
  {| heap := <[self := {| _children := Some c;
                          _parents := _parents (get_obj (heap st) self) |}]>
               (heap st);
     log := log st |}.

(** [if self._children is not None: logger.warning(...)] *)
Definition warned (self : node) (st : state) : state :=
  match _children (get_obj (heap st) self) with
  | Some _ => warning msg_overwrite self st
  | None => st
  end.

(** The body of [Node.__call__] *)
Definition call_body (self : node) (args : list value)
    (kwargs : list (string * value)) (st : state) : result node * state :=
  let st1 := warned self st in
  match loop_args args [] with
  | Raise e => (Raise e, st1)
  | Ret _args =>
      match loop_kwargs kwargs [] with
      | Raise e => (Raise e, st1)
      | Ret _kwargs => (Ret self, set_children self (_args, _kwargs) st1)
      end
  end.

(** One of the keywords of a call is named [self]. *)
Definition takes_self (kwargs : list (string * value)) : bool :=
  existsb (String.eqb "self") (map fst kwargs).

(** [Node.__call__], called on a node with positional and keyword
    arguments. The arguments are first bound to the parameters [self],
    [args] (starred) and [kwargs] (double-starred): the node fills
    [self], so a keyword named [self] gives that parameter a second
    value and the call raises [TypeError] before the body runs, with
    nothing logged and nothing stored. Every other keyword goes to
    [kwargs] and the body runs. *)
Definition __call__ (self : node) (args : list value)
    (kwargs : list (string * value)) (st : state) : result node * state :=
  if takes_self kwargs then (Raise TypeError, st)
  else call_body self args kwargs st.

(** [Node.get_children]: the body is [pass], so the call returns
    [None] whatever the node holds. *)
Definition get_children (self : node) (st : state) : value := VNone.

(** *** Notions the properties are stated with *)

(** The error [__call__] reports for an argument of the wrong type: the
    [ValueError] of the [else] branch or the [AssertionError] of a
    failed [assert], both carrying [_invalid_msg]. *)
Definition invalid_type_error (e : exn) : Prop :=
  e = ValueError _invalid_msg \/ e = AssertionError _invalid_msg.

(** A slot value that [__call__] is documented to accept: a node, or a
    flat list, tuple or dict of nodes. *)
Definition flat_slot (v : value) : bool :=
  match v with
  | VNode _ => true
  | VList xs | VTuple xs => forallb isinstance_Node xs
  | VDict kvs => forallb isinstance_Node (values kvs)
  | VNone | VInt _ | VStr _ | VObject _ => false
  end.

(** The nodes directly inside a list of values. *)
Definition nodes_of (vs : list value) : list node :=
  flat_map (fun v => match v with VNode n => [n] | _ => [] end) vs.

(** The nodes a slot holds. *)
Definition slot_nodes (v : value) : list node :=
  match v with
  | VNode n => [n]
  | VList xs | VTuple xs => nodes_of xs
  | VDict kvs => nodes_of (values kvs)
  | VNone | VInt _ | VStr _ | VObject _ => []
  end.

(** The nodes bound as children, slot by slot, positional slots first. *)
Definition child_nodes (c : option children) : list node :=
  match c with
  | None => []
  | Some (a, k) => flat_map slot_nodes (a ++ map snd k)
  end.

(** The children of [n] in a state. *)
Definition children_of (st : state) (n : node) : list node :=
  child_nodes (_children (get_obj (heap st) n)).

(** [a] has [b] among its children. *)
Definition edge (st : state) (a b : node) : Prop :=
  In b (children_of st a).

(** [a] is an ancestor of [n]: [n] is reached from [a] along one or more
    child edges, that is, [a] is reached from [n] along the parent
    links these edges stand for. *)
Definition ancestor (st : state) (a n : node) : Prop :=
  tc (edge st) a n.

(** [n] is recorded in the parents set of [c]. *)
Definition is_parent (st : state) (n c : node) : Prop :=
  exists ps, _parents (get_obj (heap st) c) = Some ps /\ n ∈ ps.

(** What a flattening [get_children] would return: each child once, in
    slot order. *)
Definition flattened_children (st : state) (n : node) : value :=
  VList (map VNode (remove_dups (children_of st n))).

(** The state in which every node is as [__init__] leaves it. *)
Definition empty : state := {| heap := ∅; log := [] |}.

(** Three nodes for the examples. *)
Definition n1 : node := 1%positive.
Definition n2 : node := 2%positive.
Definition n3 : node := 3%positive.

(** [isinstance(v, (list, tuple))] or [isinstance(v, dict)] *)
Definition is_collection (v : value) : bool :=
  match v with
  | VList _ | VTuple _ | VDict _ => true
  | _ => false
  end.

(** The exception an unacceptable argument is answered with: the failed
    [assert] for a collection, the [else] branch for anything else. *)
Definition error_of (v : value) : exn :=
  if is_collection v then AssertionError _invalid_msg
  else ValueError _invalid_msg.

(** The first unacceptable argument of a call, positional arguments
    before keyed ones. *)
Definition first_invalid (args : list value)
    (kwargs : list (string * value)) : option value :=
  List.find (fun v => negb (flat_slot v)) (args ++ map snd kwargs).

(** The arguments of one call. *)
Definition binding : Type := list value * list (string * value).

(** A run of calls on one node, one binding after the other, whatever
    each call returns; the state after the last one. *)
Fixpoint call_all (n : node) (bs : list binding) (st : state) : state :=
  match bs with
  | [] => st
  | b :: rest => call_all n rest (snd (__call__ n (fst b) (snd b) st))
  end.

(** A binding [__call__] accepts: flat slots, and keyword names that
    are distinct, as those of a call are, and other than [self]. *)
Definition acceptable (b : binding) : Prop :=
  Forall (fun v => flat_slot v = true) (fst b ++ map snd (snd b))
  /\ NoDup (map fst (snd b))
  /\ ~ In "self" (map fst (snd b)).

End Graph.

(** ** The ordering engine

    [graph.py] describes the engine in the [Node] docstring only ("we run
    through all possible topological orderings of the graph and pick the
    ordering with least cost"); the search and the cost computation are
    not written there. They are modelled here from sections 4.5 and 6 of
    the specification. *)

Module Engine.

Local Open Scope list_scope.

(** Modelled from the spec: the ordering unit handed to the Order Search
    (missing from the source); it carries an identifier, a non-negative
    cost and the background flag. *)
Record Unit : Type := {
  uid : nat;
  cost : nat;
  is_background : bool
}.

(** Modelled from the spec: the merged, contracted graph the Order
    Search receives (missing from the source): its units and its
    dependency edges [(a, b)], read "a must come before b". *)
Record dag : Type := {
  units : list Unit;
  deps : list (nat * nat)
}.

(** Modelled from the spec: one step of the elapsed-time computation
    (missing from the source). The state is the time so far and the cost
    window of the immediately preceding unit when that unit is a
    foreground one. A background unit overlaps with that window and adds
    only its excess over it; the window is then used up. *)
Definition step (s : nat * option nat) (u : Unit) : nat * option nat :=
  let '(t, w) := s in
  if is_background u then
    match w with
    | Some d => (t + (cost u - d), None)
    | None => (t + cost u, None)
    end
  else (t + cost u, Some (cost u)).

(** Modelled from the spec: the elapsed time of an ordering under the
    background-absorption cost model (missing from the source). *)
Definition elapsed_time (ord : list Unit) : nat :=
  fst (fold_left step ord (0, None)).

(** Modelled from the spec: a unit is ready when all its dependencies
    are already placed (missing from the source). *)
Definition is_ready (g : dag) (placed : list Unit) (u : Unit) : bool :=
  forallb
    (fun e : nat * nat =>
       implb (Nat.eqb (snd e) (uid u))
             (existsb (fun p => Nat.eqb (uid p) (fst e)) placed))
    (deps g).

(** Modelled from the spec: the branch choices (missing from the
    source): every way of taking one unit out of the remaining ones. *)
Fixpoint picks {A : Type} (l : list A) : list (A * list A) :=
  match l with
  | [] => []
  | x :: rest => (x, rest) :: map (fun p => (fst p, x :: snd p)) (picks rest)
  end.

(** Modelled from the spec: lexicographic comparison of identifier
    sequences, the tie-break of the search (missing from the source). *)
Fixpoint lex_lt (a b : list nat) : bool :=
  match a, b with
  | _, [] => false
  | [], _ :: _ => true
  | x :: a', y :: b' =>
      if Nat.ltb x y then true
      else if Nat.eqb x y then lex_lt a' b'
      else false
  end.

(** Modelled from the spec: a complete ordering with its elapsed time
    (missing from the source). *)
Definition candidate : Type := list Unit * nat.

(** Modelled from the spec: [c] beats [b] when it is cheaper, or equally
    cheap and lexicographically smaller (missing from the source). *)
Definition better (c b : candidate) : bool :=
  Nat.ltb (snd c) (snd b)
  || (Nat.eqb (snd c) (snd b)
      && lex_lt (map uid (fst c)) (map uid (fst b))).

(** Modelled from the spec: keeping the best ordering known (missing
    from the source). *)
Definition improve (c : candidate) (best : option candidate)
    : option candidate :=
  match best with
  | None => Some c
  | Some b => if better c b then Some c else Some b
  end.

(** Modelled from the spec: a branch is pruned when its accumulated cost
    already exceeds the best known total (missing from the source). *)
Definition pruned (placed : list Unit) (best : option candidate) : bool :=
  match best with
  | Some b => Nat.ltb (snd b) (elapsed_time placed)
  | None => false
  end.

(** Modelled from the spec: the branch-and-bound over the partial order
    (missing from the source). [placed] is the ordering built so far,
    [remaining] the units still to place, [best] the best complete
    ordering known. Each level places one unit, so a depth equal to the
    number of remaining units explores every branch to its end. *)
Fixpoint search (depth : nat) (g : dag) (placed remaining : list Unit)
    (best : option candidate) : option candidate :=
  match remaining with
  | [] => improve (placed, elapsed_time placed) best
  | _ :: _ =>
      match depth with
      | 0 => best
      | S depth' =>
          fold_left
            (fun b (p : Unit * list Unit) =>
               if is_ready g placed (fst p) then
                 if pruned (placed ++ [fst p]) b then b
                 else search depth' g (placed ++ [fst p]) (snd p) b
               else b)
            (picks remaining) best
      end
  end.

(** Modelled from the spec: what the engine hands back (missing from the
    source): the ordering with its total cost, or the
    structural-integrity error when no ordering covers the graph. *)
Inductive outcome : Type :=
  | Ordering (ord : list Unit) (total : nat)
  | StructuralIntegrityError.

(** Modelled from the spec: the Order Search (missing from the
    source). *)
Definition order_search (g : dag) : outcome :=
  match search (length (units g)) g [] (units g) None with
  | Some (ord, total) => Ordering ord total
  | None => StructuralIntegrityError
  end.

(** *** Notions the properties are stated with *)

(** Modelled from the spec: the sum of the costs of an ordering (missing
    from the source). *)
Definition total_cost (ord : list Unit) : nat :=
  list_sum (map cost ord).

(** Modelled from the spec: the absorptions of an ordering (missing from
    the source), as pairs (foreground unit, background unit it absorbs):
    a background unit is absorbed by the unit placed immediately before
    it when that unit is a foreground one. *)
Fixpoint absorptions (ord : list Unit) : list (Unit * Unit) :=
  match ord with
  | f :: ((b :: _) as rest) =>
      if negb (is_background f) && is_background b
      then (f, b) :: absorptions rest
      else absorptions rest
  | _ => []
  end.

(** Modelled from the spec: the time saved by the absorptions, the
    smaller of the two costs for each (missing from the source). *)
Definition absorbed (ord : list Unit) : nat :=
  list_sum (map (fun p => Nat.min (cost (snd p)) (cost (fst p)))
                (absorptions ord)).

(** Modelled from the spec: the first foreground unit of a list
    (missing from the source). *)
Fixpoint next_foreground (ord : list Unit) : option Unit :=
  match ord with
  | [] => None
  | u :: rest => if is_background u then next_foreground rest else Some u
  end.

(** Modelled from the spec: the time saved under the other wording of
    section 4.5 (missing from the source), in which a background unit
    is absorbed by the nearest foreground unit that follows it. *)
Fixpoint absorbed_following (ord : list Unit) : nat :=
  match ord with
  | [] => 0
  | u :: rest =>
      (if is_background u then
         match next_foreground rest with
         | Some f => Nat.min (cost u) (cost f)
         | None => 0
         end
       else 0) + absorbed_following rest
  end.

(** The unit with identifier [a] comes before the one with identifier
    [b] in [ord]. *)
Definition before (a b : nat) (ord : list Unit) : Prop :=
  exists (l1 : list Unit) ua l2 ub l3,
    ord = (l1 ++ ua :: l2 ++ ub :: l3)%list /\ uid ua = a /\ uid ub = b.

(** [ord] lists every unit of [g] exactly once, and each dependency
    edge goes forward in it. *)
Definition topological_order (g : dag) (ord : list Unit) : Prop :=
  Permutation ord (units g)
  /\ NoDup (map uid ord)
  /\ forall a b, In (a, b) (deps g) -> before a b ord.

(** The units have distinct identifiers and the edges run between
    units. *)
Definition wf_dag (g : dag) : Prop :=
  NoDup (map uid (units g))
  /\ forall a b, In (a, b) (deps g) ->
       In a (map uid (units g)) /\ In b (map uid (units g)).

(** No unit depends on itself through a chain of edges. *)
Definition acyclic (g : dag) : Prop :=
  forall a, ~ tc (fun x y => In (x, y) (deps g)) a a.

Definition fg (i c : nat) : Unit :=
  {| uid := i; cost := c; is_background := false |}.
Definition bg (i c : nat) : Unit :=
  {| uid := i; cost := c; is_background := true |}.

(** The window a unit leaves to the unit placed right after it. *)
Definition window (u : Unit) : option nat :=
  if is_background u then None else Some (cost u).

(** Each unit of [ord] was ready when the units before it were the ones
    placed. *)
Definition respects (g : dag) (ord : list Unit) : Prop :=
  forall l1 u l2, ord = l1 ++ u :: l2 -> is_ready g l1 u = true.

(** What holds of every complete ordering the search keeps. *)
Definition good (g : dag) (c : candidate) : Prop :=
  Permutation (fst c) (units g)
  /\ respects g (fst c)
  /\ snd c = elapsed_time (fst c).

Definition all_good (g : dag) (best : option candidate) : Prop :=
  forall c, best = Some c -> good g c.

(** One branch of the search at a level: the body of its loop. *)
Definition branch (g : dag) (depth : nat) (placed : list Unit)
    (b : option candidate) (p : Unit * list Unit) : option candidate :=
  if is_ready g placed (fst p) then
    if pruned (placed ++ [fst p]) b then b
    else search depth g (placed ++ [fst p]) (snd p) b
  else b.

(** Consecutive elements are related. *)
Fixpoint walk (R : relation nat) (l : list nat) : Prop :=
  match l with
  | x :: ((y :: _) as rest) => R x y /\ walk R rest
  | _ => True
  end.

(** A graph of three units: [1] must come before [3]; [2] is free. *)
Definition sample : dag :=
  {| units := [fg 3 2; bg 1 3; fg 2 4]; deps := [(1, 3)] |}.

(** The two orderings of the published examples, as graphs in which
    the background unit depends on the foreground one. *)
Definition absorbed_fully : dag :=
  {| units := [fg 1 5; bg 2 3]; deps := [(1, 2)] |}.
Definition absorbed_partly : dag :=
  {| units := [fg 1 2; bg 2 3]; deps := [(1, 2)] |}.

End Engine.

(** * Properties *)

(** ** database.py *)

Module DatabaseSpec.
Import Py Database.

Local Open Scope Z_scope.

Lemma attr_get_not_ValueError {K V : Type} `{Countable K}
    (t : option (gmap K V)) (k : option K) :
  ~ is_ValueError (attr_get t k).
Proof. intros [msg Hm]. destruct t; discriminate. Qed.

Lemma bind_attr_get_not_ValueError {K V : Type} `{Countable K}
    (r : result (option K)) (t : option (gmap K V)) :
  is_ValueError (let* k := r in attr_get t k) -> is_ValueError r.
Proof.
  destruct r as [k|e]; simpl.
  - intros Hv. exfalso. exact (attr_get_not_ValueError t k Hv).
  - intros [msg Hm]. exists msg. congruence.
Qed.

Lemma truthy_Some (s : string) : s <> "" -> truthy (Some s) = true.
Proof. destruct s; [congruence | reflexivity]. Qed.

Lemma truthy_supplied (s : option string) :
  s <> Some "" -> truthy s = false <-> supplied s = 0%nat.
Proof.
  destruct s as [[|c s]|]; simpl; intros Hs; split; intros He;
    try reflexivity; try discriminate; congruence.
Qed.

(** [get_food_code] raises its [ValueError] exactly when both arguments
    are false in the sense of [truthy]. *)
Lemma get_food_code_ValueError (self : FnddsAPI) (alias food_name : option string) :
  is_ValueError (get_food_code self alias food_name)
  <-> truthy alias = false /\ truthy food_name = false.
Proof.
  unfold get_food_code.
  destruct (truthy alias) eqn:Ha; [|destruct (truthy food_name) eqn:Hn].
  - split; [intros Hv | intros [? ?]; discriminate].
    exfalso. exact (attr_get_not_ValueError _ _ Hv).
  - split; [intros Hv | intros [? ?]; discriminate].
    apply bind_attr_get_not_ValueError in Hv.
    exfalso. exact (attr_get_not_ValueError _ _ Hv).
  - split; [auto | intros _; eexists; reflexivity].
Qed.

(** C1 at an input that breaks it. With both an alias and a food name
    supplied, two identifying parameters instead of one, [get_food_code]
    raises no input error: it answers from the alias and never looks at
    the name. *)
Theorem get_food_code_both_supplied :
  (supplied (Some "beef") + supplied (Some "Beef, NS as to cut") = 2)%nat
  /\ get_food_code sample (Some "beef") (Some "Beef, NS as to cut")
     = Ret (Some 23000100)
  /\ ~ is_ValueError
        (get_food_code sample (Some "beef") (Some "Beef, NS as to cut")).
Proof.
  split; [reflexivity|].
  assert (He : get_food_code sample (Some "beef") (Some "Beef, NS as to cut")
               = Ret (Some 23000100)) by (vm_compute; reflexivity).
  split; [exact He|].
  rewrite He. intros [msg Hm]. discriminate.
Qed.

Section InputError.

Variable series : Type.
Variable helper : FnddsAPI -> option Z -> result series.

(** The nutrient-series helper reports no input error of its own. *)
Hypothesis helper_no_ValueError :
  forall self c, ~ is_ValueError (helper self c).

(** When the lookups do raise the input error. The parameters are
    [None], integers or non-empty strings. Each of the five lookup
    methods raises [ValueError] exactly when none of its identifying
    parameters is supplied. With more than one supplied the call is
    answered from the first supplied one in the order the method tests
    them (alias before food name in [get_food_code], alias before food
    code in [get_food_name], food code before the others elsewhere),
    the other parameters being ignored. *)
Theorem input_error_iff_none_supplied
    (self : FnddsAPI) (alias food_name : option string)
    (food_code : option Z) :
  alias <> Some "" -> food_name <> Some "" ->
  (is_ValueError (get_food_code self alias food_name)
     <-> (supplied alias + supplied food_name = 0)%nat)
  /\ (is_ValueError (get_food_name self alias food_code)
     <-> (supplied alias + supplied food_code = 0)%nat)
  /\ (is_ValueError (get_food_alias self food_code food_name)
     <-> (supplied food_code + supplied food_name = 0)%nat)
  /\ (is_ValueError (get_food_unit self alias food_code food_name)
     <-> (supplied alias + supplied food_code + supplied food_name = 0)%nat)
  /\ (is_ValueError
       (get_food_nutrient_series series helper self alias food_code food_name)
     <-> (supplied alias + supplied food_code + supplied food_name = 0)%nat)
  /\ (supplied alias = 1%nat ->
       get_food_code self alias food_name = get_food_code self alias None
       /\ get_food_name self alias food_code = get_food_name self alias None)
  /\ (supplied food_code = 1%nat ->
       get_food_alias self food_code food_name
         = get_food_alias self food_code None
       /\ get_food_unit self alias food_code food_name
         = get_food_unit self None food_code None
       /\ get_food_nutrient_series series helper self alias food_code food_name
         = get_food_nutrient_series series helper self None food_code None)
  /\ (supplied food_code = 0%nat -> supplied alias = 1%nat ->
       get_food_unit self alias food_code food_name
         = get_food_unit self alias None None
       /\ get_food_nutrient_series series helper self alias food_code food_name
         = get_food_nutrient_series series helper self alias None None).
Proof.
  intros Ha Hn.
  pose proof (truthy_supplied alias Ha) as Hta.
  pose proof (truthy_supplied food_name Hn) as Htn.
  assert (Hcode : is_ValueError (get_food_code self alias food_name)
                  <-> (supplied alias + supplied food_name = 0)%nat).
  { rewrite get_food_code_ValueError, Hta, Htn. lia. }
  repeat split.
  - apply Hcode.
  - apply Hcode.
  - destruct alias as [a|], food_code as [c|]; simpl; intros Hv;
      try reflexivity.
    + apply bind_attr_get_not_ValueError in Hv.
      exfalso. exact (attr_get_not_ValueError _ _ Hv).
    + apply bind_attr_get_not_ValueError in Hv.
      exfalso. exact (attr_get_not_ValueError _ _ Hv).
    + exfalso. exact (attr_get_not_ValueError _ _ Hv).
  - destruct alias as [a|], food_code as [c|]; simpl; intros He;
      try discriminate.
    eexists; reflexivity.
  - destruct food_code as [c|], food_name as [n|]; simpl; intros Hv;
      try reflexivity.
    + apply bind_attr_get_not_ValueError in Hv.
      exfalso. exact (attr_get_not_ValueError _ _ Hv).
    + apply bind_attr_get_not_ValueError in Hv.
      exfalso. exact (attr_get_not_ValueError _ _ Hv).
    + exfalso. exact (attr_get_not_ValueError _ _ Hv).
  - destruct food_code as [c|], food_name as [n|]; simpl; intros He;
      try discriminate.
    eexists; reflexivity.
  - unfold get_food_unit. destruct food_code as [c|]; intros Hv.
    + exfalso. exact (attr_get_not_ValueError _ _ Hv).
    + apply bind_attr_get_not_ValueError in Hv. apply Hcode in Hv.
      simpl. lia.
  - unfold get_food_unit. destruct food_code as [c|]; intros He.
    + simpl in He. lia.
    + assert (Hv : is_ValueError (get_food_code self alias food_name))
        by (apply Hcode; simpl in He; lia).
      destruct Hv as [msg ->]. eexists; reflexivity.
  - unfold get_food_nutrient_series. destruct food_code as [c|]; intros Hv.
    + exfalso. exact (helper_no_ValueError _ _ Hv).
    + enough (Hz : (supplied alias + supplied food_name = 0)%nat)
        by (simpl; lia).
      apply Hcode.
      destruct (get_food_code self alias food_name) as [c|e].
      * exfalso. exact (helper_no_ValueError _ _ Hv).
      * destruct Hv as [msg Hm]. exists msg. simpl in Hm. congruence.
  - unfold get_food_nutrient_series. destruct food_code as [c|]; intros He.
    + simpl in He. lia.
    + assert (Hv : is_ValueError (get_food_code self alias food_name))
        by (apply Hcode; simpl in He; lia).
      destruct Hv as [msg ->]. eexists; reflexivity.
  - destruct alias as [a|]; [|discriminate].
    unfold get_food_code. rewrite truthy_Some by congruence. reflexivity.
  - destruct alias as [a|]; [|discriminate]. reflexivity.
  - destruct food_code as [c|]; [|discriminate]. reflexivity.
  - destruct food_code as [c|]; [|discriminate]. reflexivity.
  - destruct food_code as [c|]; [|discriminate]. reflexivity.
  - destruct food_code as [c|]; [discriminate|].
    destruct alias as [a|]; [|discriminate].
    unfold get_food_unit, get_food_code.
    rewrite truthy_Some by congruence. reflexivity.
  - destruct food_code as [c|]; [discriminate|].
    destruct alias as [a|]; [|discriminate].
    unfold get_food_nutrient_series, get_food_code.
    rewrite truthy_Some by congruence. reflexivity.
Qed.

End InputError.

Lemma input_error_iff_none_supplied_witness :
  Some "beef" <> Some ""
  /\ (is_ValueError (get_food_code sample (Some "beef") (Some "Beef, NS as to cut"))
      <-> (supplied (Some "beef") + supplied (Some "Beef, NS as to cut") = 0)%nat).
Proof.
  split; [discriminate|].
  refine (proj1 (input_error_iff_none_supplied (option Z) (fun _ c => Ret c) _
                   sample (Some "beef") (Some "Beef, NS as to cut") None _ _));
    [intros self c [msg Hm]; discriminate | discriminate | discriminate].
Defined.

(** C9 at the input that breaks it. An empty alias is an identifying
    value that no table lists, yet [get_food_code] and [get_food_unit]
    raise the [ValueError] of the no-parameter case for it, whatever the
    object holds; [get_food_name], which tests [alias is not None],
    returns [None] for the same alias. *)
Theorem empty_alias_raises (self : FnddsAPI) :
  get_food_code self (Some "") None = Raise (ValueError msg_food_code)
  /\ get_food_unit self (Some "") None None = Raise (ValueError msg_food_code)
  /\ get_food_name sample (Some "") None = Ret None.
Proof. repeat split. Qed.

(** The part of C9 that holds: on a loaded object, a non-empty alias or
    name, or a food code, that the tables do not list makes the four
    lookups return [None]. *)
Lemma unknown_value_returns_None
    (a2c : gmap string Z) (c2n : gmap Z string) (n2a : gmap string string)
    (units : gmap Z string) (h : option ref)
    (alias name : string) (code : Z) :
  let self := {| _alias_to_food_code := Some a2c;
                 _food_code_to_food_name := Some c2n;
                 _food_name_to_alias := Some n2a;
                 _nutrient_header := h;
                 _food_unit_by_food_code := Some units |} in
  alias <> "" -> name <> "" ->
  a2c !! alias = None -> n2a !! name = None ->
  c2n !! code = None -> units !! code = None ->
  get_food_code self (Some alias) None = Ret None
  /\ get_food_code self None (Some name) = Ret None
  /\ get_food_name self (Some alias) None = Ret None
  /\ get_food_name self None (Some code) = Ret None
  /\ get_food_alias self (Some code) None = Ret None
  /\ get_food_alias self None (Some name) = Ret None
  /\ get_food_unit self (Some alias) None None = Ret None
  /\ get_food_unit self None (Some code) None = Ret None
  /\ get_food_unit self None None (Some name) = Ret None.
Proof.
  intros self Ha Hn Ha2c Hn2a Hc2n Hu.
  unfold get_food_unit, get_food_code, get_food_name, get_food_alias.
  rewrite !truthy_Some by assumption.
  simpl. rewrite ?Ha2c, ?Hn2a, ?Hc2n, ?Hu. simpl.
  rewrite ?Ha2c, ?Hn2a, ?Hc2n, ?Hu.
  repeat split.
Qed.

(** C10. On an object whose header is loaded, reading [nutrient_header]
    returns a list object that is new (its identity is not in use, so it
    is not the internal one) and whose contents equal the stored header;
    the rest of the store is untouched. Whatever is then done to the
    returned list, the stored header keeps its contents and a second
    read returns a list equal to the first. *)
Theorem nutrient_header_fresh_copy
    (self : FnddsAPI) (st : store) (h : ref) (xs : list string) :
  _nutrient_header self = Some h ->
  st !! h = Some xs ->
  exists r st1,
    nutrient_header self st = (Ret r, st1)
    /\ (r ∉ dom st) /\ r <> h
    /\ st1 !! r = Some xs
    /\ (forall r', r' <> r -> st1 !! r' = st !! r')
    /\ forall f : list string -> list string,
         let st2 := mutate r f st1 in
         st2 !! r = Some (f xs)
         /\ st2 !! h = Some xs
         /\ exists r2 st3,
              nutrient_header self st2 = (Ret r2, st3)
              /\ st3 !! r2 = Some xs.
Proof.
  intros Hh Hst.
  assert (Hfresh : fresh (dom st) ∉ dom st) by apply is_fresh.
  assert (Hne : fresh (dom st) <> h).
  { intros He. apply Hfresh. rewrite He. apply elem_of_dom. eauto. }
  exists (fresh (dom st)), (<[fresh (dom st) := xs]> st).
  split.
  { unfold nutrient_header, list_copy. rewrite Hh, Hst. reflexivity. }
  split; [exact Hfresh|]. split; [exact Hne|].
  split; [apply lookup_insert_eq|].
  split; [intros r' Hr'; apply lookup_insert_ne; congruence|].
  intros f st2.
  assert (Hh2 : st2 !! h = Some xs).
  { unfold st2, mutate. rewrite lookup_alter_ne by exact Hne.
    rewrite lookup_insert_ne by exact Hne. exact Hst. }
  split.
  { unfold st2, mutate. rewrite lookup_alter_eq, lookup_insert_eq.
    reflexivity. }
  split; [exact Hh2|].
  exists (fresh (dom st2)), (<[fresh (dom st2) := xs]> st2).
  split; [|apply lookup_insert_eq].
  unfold nutrient_header, list_copy. rewrite Hh, Hh2. reflexivity.
Qed.

Lemma nutrient_header_fresh_copy_witness :
  exists r st1,
    nutrient_header sample sample_store = (Ret r, st1)
    /\ st1 !! r = Some ["Energy"; "Protein"]
    /\ mutate r (fun l => app l ["Fat"]) st1 !! 1%positive
       = Some ["Energy"; "Protein"].
Proof.
  destruct (nutrient_header_fresh_copy sample sample_store 1%positive
              ["Energy"; "Protein"] eq_refl eq_refl)
    as (r & st1 & Hr & _ & _ & Hc & _ & Hm).
  exists r, st1. split; [exact Hr|]. split; [exact Hc|].
  exact (proj1 (proj2 (Hm (fun l => app l ["Fat"])))).
Defined.

(** *** More on the lookups *)

Lemma attr_get_Some {K V : Type} `{Countable K}
    (t : option (gmap K V)) (k : option K) (v : V) :
  attr_get t k = Ret (Some v) ->
  exists d k', t = Some d /\ k = Some k' /\ d !! k' = Some v.
Proof.
  destruct t as [d|]; [|discriminate]. destruct k as [k'|]; [|discriminate].
  simpl. intros [= Hv]. eauto.
Qed.

Lemma bind_attr_get_Some {K V : Type} `{Countable K}
    (r : result (option K)) (t : option (gmap K V)) (v : V) :
  (let* k := r in attr_get t k) = Ret (Some v) ->
  exists d k', r = Ret (Some k') /\ t = Some d /\ d !! k' = Some v.
Proof.
  destruct r as [k|e]; [|discriminate]. simpl. intros Hk.
  apply attr_get_Some in Hk as (d & k' & -> & -> & Hv). eauto.
Qed.

(** An object as the constructor leaves it answers no lookup, whatever
    file paths it was given: a call with a usable parameter fails on
    the table that is still [None], a call without one raises the input
    error, and reading the header fails and leaves the store alone. *)
Theorem fresh_object_answers_nothing
    (p1 p2 alias food_name : option string) (food_code : option Z)
    (st : store) :
  let self := __init__ p1 p2 in
  get_food_code self alias food_name
    = Raise (if truthy alias || truthy food_name then AttributeError
             else ValueError msg_food_code)
  /\ get_food_name self alias food_code
    = Raise (match alias, food_code with
             | None, None => ValueError msg_food_name
             | _, _ => AttributeError
             end)
  /\ get_food_alias self food_code food_name
    = Raise (match food_code, food_name with
             | None, None => ValueError msg_food_alias
             | _, _ => AttributeError
             end)
  /\ get_food_unit self alias food_code food_name
    = Raise (match food_code with
             | Some _ => AttributeError
             | None => if truthy alias || truthy food_name then AttributeError
                       else ValueError msg_food_code
             end)
  /\ nutrient_header self st = (Raise TypeError, st).
Proof.
  intros self. unfold get_food_unit, get_food_code.
  repeat split.
  - destruct (truthy alias), (truthy food_name); reflexivity.
  - destruct alias, food_code; reflexivity.
  - destruct food_code, food_name; reflexivity.
  - destruct food_code; [reflexivity|].
    destruct (truthy alias), (truthy food_name); reflexivity.
Qed.

Lemma unknown_value_returns_None_witness :
  get_food_code sample (Some "pork") None = Ret None
  /\ get_food_unit sample None (Some 7) None = Ret None.
Proof.
  pose proof (unknown_value_returns_None
                {[ "beef" := 23000100 ]}
                {[ 23000100 := "Beef, NS as to cut" ]}
                {[ "Beef, NS as to cut" := "beef" ]}
                {[ 23000100 := "lb" ]} (Some 1%positive)
                "pork" "Pork, NFS" 7) as Hu.
  simpl in Hu.
  destruct Hu as (Hc & _ & _ & _ & _ & _ & _ & Hunit & _);
    try discriminate; try reflexivity.
  split; [exact Hc | exact Hunit].
Defined.

(** The lookups chain. Once [get_food_code] has found the code of a
    non-empty alias, looking the name or the unit up by the alias is
    the same as looking it up by that code; likewise the alias by code
    goes through the name, and the code by name goes through the
    alias. For an alias the table does not list the chain breaks:
    [get_food_name] by alias raises no input error, while passing the
    [None] that [get_food_code] returned on to it does. *)
Theorem lookups_chain (self : FnddsAPI) (a n : string) (c : Z) :
  a <> "" -> n <> "" ->
  (get_food_code self (Some a) None = Ret (Some c) ->
     get_food_name self (Some a) None = get_food_name self None (Some c)
     /\ get_food_unit self (Some a) None None
        = get_food_unit self None (Some c) None)
  /\ (get_food_name self None (Some c) = Ret (Some n) ->
     get_food_alias self (Some c) None = get_food_alias self None (Some n))
  /\ (get_food_alias self None (Some n) = Ret (Some a) ->
     get_food_code self None (Some n) = get_food_code self (Some a) None)
  /\ (get_food_code self (Some a) None = Ret None ->
     ~ is_ValueError (get_food_name self (Some a) None)
     /\ is_ValueError (get_food_name self None None)).
Proof.
  intros Ha Hn.
  unfold get_food_unit, get_food_code, get_food_name, get_food_alias.
  rewrite !truthy_Some by assumption. simpl.
  split; [|split; [|split]].
  - intros Hc. rewrite Hc. split; reflexivity.
  - intros Hc. rewrite Hc. reflexivity.
  - intros Hc. rewrite Hc. reflexivity.
  - intros Hc. rewrite Hc. simpl. split.
    + apply attr_get_not_ValueError.
    + eexists. reflexivity.
Qed.

Lemma lookups_chain_witness :
  get_food_name sample (Some "beef") None
  = get_food_name sample None (Some 23000100)
  /\ get_food_code sample None (Some "Beef, NS as to cut")
     = get_food_code sample (Some "beef") None.
Proof.
  destruct (lookups_chain sample "beef" "Beef, NS as to cut" 23000100)
    as (Hcode & _ & Halias & _); try discriminate.
  split.
  - exact (proj1 (Hcode eq_refl)).
  - exact (Halias eq_refl).
Defined.

(** Round trip on consistent tables: when an alias, a food code and a
    food name are linked to one another by the three tables, each of
    them recovers the other two. *)
Theorem identifiers_round_trip
    (a2c : gmap string Z) (c2n : gmap Z string) (n2a : gmap string string)
    (u : option (gmap Z string)) (h : option ref)
    (a n : string) (c : Z) :
  let self := {| _alias_to_food_code := Some a2c;
                 _food_code_to_food_name := Some c2n;
                 _food_name_to_alias := Some n2a;
                 _nutrient_header := h;
                 _food_unit_by_food_code := u |} in
  a <> "" -> n <> "" ->
  a2c !! a = Some c -> c2n !! c = Some n -> n2a !! n = Some a ->
  get_food_code self (Some a) None = Ret (Some c)
  /\ get_food_code self None (Some n) = Ret (Some c)
  /\ get_food_name self (Some a) None = Ret (Some n)
  /\ get_food_name self None (Some c) = Ret (Some n)
  /\ get_food_alias self (Some c) None = Ret (Some a)
  /\ get_food_alias self None (Some n) = Ret (Some a).
Proof.
  intros self Ha Hn Hac Hcn Hna.
  unfold get_food_code, get_food_name, get_food_alias.
  rewrite !truthy_Some by assumption. simpl.
  rewrite ?Hac, ?Hcn, ?Hna. simpl. rewrite ?Hac, ?Hcn, ?Hna.
  repeat split.
Qed.

Lemma identifiers_round_trip_witness :
  get_food_code sample None (Some "Beef, NS as to cut") = Ret (Some 23000100)
  /\ get_food_alias sample (Some 23000100) None = Ret (Some "beef").
Proof.
  pose proof (identifiers_round_trip
                {[ "beef" := 23000100 ]}
                {[ 23000100 := "Beef, NS as to cut" ]}
                {[ "Beef, NS as to cut" := "beef" ]}
                (Some {[ 23000100 := "lb" ]}) (Some 1%positive)
                "beef" "Beef, NS as to cut" 23000100) as Hr.
  simpl in Hr.
  destruct Hr as (_ & Hc & _ & _ & Hal & _);
    try discriminate; try reflexivity.
  split; [exact Hc | exact Hal].
Defined.

(** No lookup invents an answer: a food code, name, alias or unit that
    a call returns is an entry of the table the method reads last. *)
Theorem answers_come_from_tables
    (self : FnddsAPI) (alias food_name : option string)
    (food_code : option Z) :
  (forall c, get_food_code self alias food_name = Ret (Some c) ->
     exists t k, _alias_to_food_code self = Some t /\ t !! k = Some c)
  /\ (forall x, get_food_name self alias food_code = Ret (Some x) ->
     exists t k, _food_code_to_food_name self = Some t /\ t !! k = Some x)
  /\ (forall x, get_food_alias self food_code food_name = Ret (Some x) ->
     exists t k, _food_name_to_alias self = Some t /\ t !! k = Some x)
  /\ (forall x, get_food_unit self alias food_code food_name = Ret (Some x) ->
     exists t k, _food_unit_by_food_code self = Some t /\ t !! k = Some x).
Proof.
  repeat split.
  - intros c. unfold get_food_code.
    destruct (truthy alias); [|destruct (truthy food_name); [|discriminate]].
    + intros Hc. apply attr_get_Some in Hc as (d & k & Hd & _ & Hk). eauto.
    + intros Hc. apply bind_attr_get_Some in Hc as (d & k & _ & Hd & Hk).
      eauto.
  - intros x. unfold get_food_name.
    destruct alias as [a|]; [|destruct food_code as [c|]; [|discriminate]].
    + intros Hc. apply bind_attr_get_Some in Hc as (d & k & _ & Hd & Hk).
      eauto.
    + intros Hc. apply attr_get_Some in Hc as (d & k & Hd & _ & Hk). eauto.
  - intros x. unfold get_food_alias.
    destruct food_code as [c|]; [|destruct food_name as [n|]; [|discriminate]].
    + intros Hc. apply bind_attr_get_Some in Hc as (d & k & _ & Hd & Hk).
      eauto.
    + intros Hc. apply attr_get_Some in Hc as (d & k & Hd & _ & Hk). eauto.
  - intros x. unfold get_food_unit. destruct food_code as [c|].
    + intros Hc. apply attr_get_Some in Hc as (d & k & Hd & _ & Hk). eauto.
    + intros Hc. apply bind_attr_get_Some in Hc as (d & k & _ & Hd & Hk).
      eauto.
Qed.

Lemma answers_come_from_tables_witness :
  exists t k, _alias_to_food_code sample = Some t /\ t !! k = Some 23000100.
Proof.
  exact (proj1 (answers_come_from_tables sample (Some "beef") None None)
           23000100 eq_refl).
Defined.

(** Two reads of the header never alias: each returns a list object of
    its own, with equal contents, and changing the first list in place
    leaves the second as it was. *)
Theorem header_reads_are_independent
    (self : FnddsAPI) (st st1 st2 : store) (r1 r2 : ref) :
  nutrient_header self st = (Ret r1, st1) ->
  nutrient_header self st1 = (Ret r2, st2) ->
  r1 <> r2
  /\ is_Some (st2 !! r1)
  /\ st2 !! r1 = st2 !! r2
  /\ forall f, mutate r1 f st2 !! r2 = st2 !! r2.
Proof.
  unfold nutrient_header, list_copy.
  destruct (_nutrient_header self) as [h|]; [|discriminate].
  destruct (st !! h) as [xs|] eqn:Hh; [|discriminate].
  intros [= <- <-].
  assert (Hne : fresh (dom st) <> h).
  { intros He. apply (is_fresh (dom st)). rewrite He.
    apply elem_of_dom. eauto. }
  rewrite lookup_insert_ne by exact Hne. rewrite Hh.
  intros [= <- <-].
  set (st1 := <[fresh (dom st) := xs]> st).
  assert (Hin : fresh (dom st) ∈ dom st1).
  { apply elem_of_dom. unfold st1. rewrite lookup_insert_eq. eauto. }
  assert (Hne2 : fresh (dom st) <> fresh (dom st1)).
  { intros He. apply (is_fresh (dom st1)). rewrite <- He. exact Hin. }
  assert (H1 : <[fresh (dom st1) := xs]> st1 !! fresh (dom st) = Some xs).
  { rewrite lookup_insert_ne by congruence. unfold st1.
    apply lookup_insert_eq. }
  split; [exact Hne2|]. split; [rewrite H1; eauto|].
  split; [rewrite H1, lookup_insert_eq; reflexivity|].
  intros f. unfold mutate. apply lookup_alter_ne. exact Hne2.
Qed.

Lemma header_reads_are_independent_witness :
  let st1 := snd (nutrient_header sample sample_store) in
  let st2 := snd (nutrient_header sample st1) in
  fst (nutrient_header sample sample_store) = Ret 2%positive
  /\ fst (nutrient_header sample st1) = Ret 3%positive
  /\ st2 !! 2%positive = st2 !! 3%positive.
Proof.
  intros st1 st2.
  assert (H1 : nutrient_header sample sample_store = (Ret 2%positive, st1))
    by (vm_compute; reflexivity).
  assert (H2 : nutrient_header sample st1 = (Ret 3%positive, st2))
    by (vm_compute; reflexivity).
  rewrite H1, H2. split; [reflexivity|]. split; [reflexivity|].
  exact (proj1 (proj2 (proj2
           (header_reads_are_independent sample sample_store st1 st2
              2%positive 3%positive H1 H2)))).
Defined.

End DatabaseSpec.

(** ** graph.py *)

Module GraphSpec.
Import Py Graph.

Local Open Scope list_scope.

(** *** The two loops *)

Lemma check_arg_flat (v : value) :
  flat_slot v = true -> check_arg v = Ret v.
Proof.
  destruct v; simpl; intros Hv; try discriminate; try reflexivity;
    rewrite Hv; reflexivity.
Qed.

Lemma check_arg_not_flat (v : value) :
  flat_slot v = false ->
  exists e, check_arg v = Raise e /\ invalid_type_error e.
Proof.
  unfold invalid_type_error.
  destruct v; simpl; intros Hv; try discriminate; try rewrite Hv; eauto.
Qed.

Lemma check_arg_Ret (v w : value) :
  check_arg v = Ret w -> w = v /\ flat_slot v = true.
Proof.
  destruct v; simpl; try discriminate;
    try (intros [= <-]; split; reflexivity);
    match goal with
    | |- context [forallb ?f ?l] => destruct (forallb f l)
    end; try discriminate; intros [= <-]; split; reflexivity.
Qed.

Lemma loop_args_flat (args acc : list value) :
  Forall (fun v => flat_slot v = true) args ->
  loop_args args acc = Ret (acc ++ args).
Proof.
  intros Hall. revert acc.
  induction Hall as [|v rest Hv _ IH]; intros acc; simpl.
  - rewrite app_nil_r. reflexivity.
  - rewrite (check_arg_flat v Hv). simpl. rewrite IH, <- app_assoc.
    reflexivity.
Qed.

Lemma loop_args_Ret (args acc r : list value) :
  loop_args args acc = Ret r ->
  r = acc ++ args /\ Forall (fun v => flat_slot v = true) args.
Proof.
  revert acc. induction args as [|v rest IH]; intros acc; simpl.
  - intros [= <-]. rewrite app_nil_r. split; [reflexivity | constructor].
  - destruct (check_arg v) as [w|e] eqn:Hc; simpl; [|discriminate].
    apply check_arg_Ret in Hc as [-> Hv]. intros Hr.
    apply IH in Hr as [-> Hrest]. rewrite <- app_assoc.
    split; [reflexivity | constructor; assumption].
Qed.

Lemma loop_args_not_flat (args acc : list value) (v : value) :
  In v args -> flat_slot v = false ->
  exists e, loop_args args acc = Raise e /\ invalid_type_error e.
Proof.
  revert acc. induction args as [|a rest IH]; intros acc; simpl; [tauto|].
  intros [-> | Hin] Hv.
  - destruct (check_arg_not_flat v Hv) as (e & -> & He). simpl. eauto.
  - destruct (flat_slot a) eqn:Ha.
    + rewrite (check_arg_flat a Ha). simpl. apply IH; assumption.
    + destruct (check_arg_not_flat a Ha) as (e & -> & He). simpl. eauto.
Qed.

Lemma check_arg_Raise (v : value) (e : exn) :
  check_arg v = Raise e -> invalid_type_error e.
Proof.
  unfold invalid_type_error.
  destruct v; simpl; try discriminate;
    try (intros [= <-]; auto);
    match goal with
    | |- context [forallb ?f ?l] => destruct (forallb f l)
    end; try discriminate; intros [= <-]; auto.
Qed.

Lemma loop_args_Raise (args acc : list value) (e : exn) :
  loop_args args acc = Raise e -> invalid_type_error e.
Proof.
  revert acc. induction args as [|v rest IH]; intros acc; simpl;
    [discriminate|].
  destruct (check_arg v) as [w|e'] eqn:Hc; simpl.
  - apply IH.
  - intros [= <-]. exact (check_arg_Raise v e' Hc).
Qed.

Lemma dict_set_new (key : string) (v : value) (d : list (string * value)) :
  ~ In key (map fst d) -> dict_set key v d = d ++ [(key, v)].
Proof.
  induction d as [|[k w] rest IH]; simpl; intros Hk; [reflexivity|].
  destruct (String.eqb_spec k key) as [->|Hne]; [tauto|].
  rewrite IH by tauto. reflexivity.
Qed.

Lemma loop_kwargs_flat (kwargs acc : list (string * value)) :
  Forall (fun v => flat_slot v = true) (map snd kwargs) ->
  NoDup (map fst (acc ++ kwargs)) ->
  loop_kwargs kwargs acc = Ret (acc ++ kwargs).
Proof.
  revert acc. induction kwargs as [|[key v] rest IH]; intros acc; simpl.
  - rewrite app_nil_r. reflexivity.
  - intros Hall Hnd. inversion Hall as [|? ? Hv Hrest]; subst.
    rewrite (check_arg_flat v Hv). simpl.
    rewrite map_app in Hnd. simpl in Hnd.
    rewrite dict_set_new.
    + rewrite IH; [rewrite <- app_assoc; reflexivity | assumption |].
      rewrite <- app_assoc. simpl. rewrite map_app. exact Hnd.
    + apply NoDup_app in Hnd as (_ & Hdisj & _).
      intros Hin. apply list_elem_of_In in Hin.
      apply (Hdisj key Hin). left.
Qed.

Lemma loop_kwargs_not_flat (kwargs acc : list (string * value)) (v : value) :
  In v (map snd kwargs) -> flat_slot v = false ->
  exists e, loop_kwargs kwargs acc = Raise e /\ invalid_type_error e.
Proof.
  revert acc. induction kwargs as [|[key a] rest IH]; intros acc; simpl;
    [tauto|].
  intros [-> | Hin] Hv.
  - destruct (check_arg_not_flat v Hv) as (e & -> & He). simpl. eauto.
  - destruct (flat_slot a) eqn:Ha.
    + rewrite (check_arg_flat a Ha). simpl. apply IH; assumption.
    + destruct (check_arg_not_flat a Ha) as (e & -> & He). simpl. eauto.
Qed.

(** *** The call as a whole *)

Lemma heap_warned (self : node) (st : state) : heap (warned self st) = heap st.
Proof.
  unfold warned. destruct (_children (get_obj (heap st) self)); reflexivity.
Qed.

Lemma get_obj_insert (h : gmap node Node) (n m : node) (o : Node) :
  get_obj (<[n := o]> h) m = if decide (n = m) then o else get_obj h m.
Proof.
  unfold get_obj. rewrite lookup_insert. destruct (decide (n = m)); reflexivity.
Qed.

(** With acceptable arguments the call stores them and returns
    [self]. *)
Lemma takes_self_In (kwargs : list (string * value)) :
  takes_self kwargs = true <-> In "self" (map fst kwargs).
Proof.
  unfold takes_self. rewrite existsb_exists. split.
  - intros (k & Hk & He). apply String.eqb_eq in He. subst k. exact Hk.
  - intros Hin. exists "self". split; [exact Hin | apply String.eqb_refl].
Qed.

Lemma takes_self_not_In (kwargs : list (string * value)) :
  takes_self kwargs = false <-> ~ In "self" (map fst kwargs).
Proof.
  rewrite <- takes_self_In. destruct (takes_self kwargs); split;
    congruence.
Qed.

Lemma call_no_self (self : node) (args : list value)
    (kwargs : list (string * value)) (st : state) :
  ~ In "self" (map fst kwargs) ->
  __call__ self args kwargs st = call_body self args kwargs st.
Proof.
  intros Hs. apply takes_self_not_In in Hs. unfold __call__.
  rewrite Hs. reflexivity.
Qed.

Lemma call_with_self (self : node) (args : list value)
    (kwargs : list (string * value)) (st : state) :
  In "self" (map fst kwargs) ->
  __call__ self args kwargs st = (Raise TypeError, st).
Proof.
  intros Hs. apply takes_self_In in Hs. unfold __call__.
  rewrite Hs. reflexivity.
Qed.

Lemma call_flat (self : node) (args : list value)
    (kwargs : list (string * value)) (st : state) :
  Forall (fun v => flat_slot v = true) (args ++ map snd kwargs) ->
  NoDup (map fst kwargs) ->
  ~ In "self" (map fst kwargs) ->
  __call__ self args kwargs st
  = (Ret self, set_children self (args, kwargs) (warned self st)).
Proof.
  intros Hall Hnd Hs. apply Forall_app in Hall as [Ha Hk].
  rewrite (call_no_self self args kwargs st Hs). unfold call_body.
  rewrite (loop_args_flat args [] Ha).
  rewrite (loop_kwargs_flat kwargs [] Hk Hnd). reflexivity.
Qed.

(** A call that returns has stored its arguments and returned [self]. *)
Lemma call_Ret (self r : node) (args : list value)
    (kwargs : list (string * value)) (st st' : state) :
  __call__ self args kwargs st = (Ret r, st') ->
  r = self
  /\ Forall (fun v => flat_slot v = true) (args ++ map snd kwargs)
  /\ (exists k, loop_kwargs kwargs [] = Ret k
        /\ st' = set_children self (args, k) (warned self st))
  /\ ~ In "self" (map fst kwargs).
Proof.
  unfold __call__. destruct (takes_self kwargs) eqn:Hs; [discriminate|].
  apply takes_self_not_In in Hs. unfold call_body.
  destruct (loop_args args []) as [a|e] eqn:Ha; [|discriminate].
  destruct (loop_kwargs kwargs []) as [k|e] eqn:Hk; [|discriminate].
  intros [= <- <-]. apply loop_args_Ret in Ha as [-> Hflat]. simpl.
  split; [reflexivity|]. split; [|split; [eauto | exact Hs]].
  apply Forall_app. split; [assumption|].
  apply Forall_forall. intros v Hv.
  destruct (flat_slot v) eqn:Hf; [reflexivity|].
  apply list_elem_of_In in Hv.
  destruct (loop_kwargs_not_flat kwargs [] v Hv Hf) as (e & He & _).
  congruence.
Qed.

Lemma children_set_children (self : node) (c : children) (st : state) :
  _children (get_obj (heap (set_children self c st)) self) = Some c.
Proof.
  unfold set_children. simpl. rewrite get_obj_insert.
  destruct (decide (self = self)); [reflexivity | congruence].
Qed.

Lemma parents_set_children (self m : node) (c : children) (st : state) :
  _parents (get_obj (heap (set_children self c st)) m)
  = _parents (get_obj (heap st) m).
Proof.
  unfold set_children. simpl. rewrite get_obj_insert.
  destruct (decide (self = m)) as [->|]; reflexivity.
Qed.

Lemma children_set_children_ne (self m : node) (c : children) (st : state) :
  self <> m ->
  _children (get_obj (heap (set_children self c st)) m)
  = _children (get_obj (heap st) m).
Proof.
  intros Hne. unfold set_children. simpl. rewrite get_obj_insert.
  destruct (decide (self = m)); [congruence | reflexivity].
Qed.

(** C5. Whenever some positional or keyed argument is neither a node
    nor a flat list, tuple or dict of nodes (a nested collection, or a
    value of another type), the call raises and stores nothing: every
    node keeps the children it had, so a node whose children were
    unbound is left unbound, and in that case the whole state is as
    before. The exception is the invalid-argument-type error of the
    body, or, when a keyword is named [self], the [TypeError] that
    binding the arguments raises before the body runs. *)
Theorem invalid_slot_rejected (st : state) (self : node)
    (args : list value) (kwargs : list (string * value)) (v : value) :
  In v (args ++ map snd kwargs) ->
  flat_slot v = false ->
  exists e,
    fst (__call__ self args kwargs st) = Raise e
    /\ (~ In "self" (map fst kwargs) -> invalid_type_error e)
    /\ (In "self" (map fst kwargs) -> e = TypeError)
    /\ heap (snd (__call__ self args kwargs st)) = heap st
    /\ (_children (get_obj (heap st) self) = None ->
        snd (__call__ self args kwargs st) = st
        /\ _children
             (get_obj (heap (snd (__call__ self args kwargs st))) self)
           = None).
Proof.
  intros Hin Hv.
  destruct (in_dec String.string_dec "self" (map fst kwargs)) as [Hs|Hs].
  { exists TypeError. rewrite (call_with_self self args kwargs st Hs). simpl.
    split; [reflexivity|]. split; [tauto|]. split; [reflexivity|].
    split; [reflexivity|]. intros Hnone. split; [reflexivity | exact Hnone]. }
  assert (Hcall : exists e, __call__ self args kwargs st
                            = (Raise e, warned self st)
                            /\ invalid_type_error e).
  { rewrite (call_no_self self args kwargs st Hs). unfold call_body.
    destruct (loop_args args []) as [a|e] eqn:Ha.
    - apply loop_args_Ret in Ha as [_ Hflat].
      apply in_app_or in Hin as [Hin|Hin].
      + rewrite Forall_forall in Hflat. apply list_elem_of_In in Hin.
        rewrite (Hflat v Hin) in Hv. discriminate.
      + destruct (loop_kwargs_not_flat kwargs [] v Hin Hv) as (e & -> & He).
        eauto.
    - apply loop_args_Raise in Ha. eauto. }
  destruct Hcall as (e & Hcall & He). exists e. rewrite Hcall. simpl.
  split; [reflexivity|]. split; [intros _; exact He|]. split; [tauto|].
  split; [apply heap_warned|].
  intros Hnone. unfold warned. rewrite Hnone. split; [reflexivity | exact Hnone].
Qed.

Lemma invalid_slot_rejected_witness :
  exists e,
    fst (__call__ n1 [VNode n2; VList [VList [VNode n3]]] [] empty) = Raise e
    /\ invalid_type_error e.
Proof.
  destruct (invalid_slot_rejected empty n1
              [VNode n2; VList [VList [VNode n3]]] []
              (VList [VList [VNode n3]]))
    as (e & He & Hi & _).
  - simpl. right. left. reflexivity.
  - reflexivity.
  - exists e. split; [exact He|]. apply Hi. intros [].
Defined.

(** A keyword named [self] with an unacceptable value: the call raises
    the [TypeError] of argument binding, not the error of the body. *)
Lemma invalid_slot_with_self :
  fst (__call__ n1 [] [("self", VInt 5)] empty) = Raise TypeError.
Proof. reflexivity. Qed.

(** C6. With acceptable arguments (flat slots, and keywords that are
    distinct and not named [self], the name the node itself fills),
    calling a node whose children are already bound does not raise: it
    returns, the stored children are now the new arguments, and one
    warning record for the node has been added to the log. Calling a
    node whose children are unbound leaves the log as it was. *)
Theorem rebinding_overwrites_with_warning (st : state) (self : node)
    (args : list value) (kwargs : list (string * value)) :
  Forall (fun v => flat_slot v = true) (args ++ map snd kwargs) ->
  NoDup (map fst kwargs) ->
  ~ In "self" (map fst kwargs) ->
  fst (__call__ self args kwargs st) = Ret self
  /\ _children (get_obj (heap (snd (__call__ self args kwargs st))) self)
     = Some (args, kwargs)
  /\ (is_Some (_children (get_obj (heap st) self)) ->
      log (snd (__call__ self args kwargs st))
      = log st ++ [(msg_overwrite, self)])
  /\ (_children (get_obj (heap st) self) = None ->
      log (snd (__call__ self args kwargs st)) = log st).
Proof.
  intros Hall Hnd Hs.
  rewrite (call_flat self args kwargs st Hall Hnd Hs). simpl.
  split; [reflexivity|].
  split; [apply (children_set_children self (args, kwargs))|].
  unfold warned. split.
  - intros [c Hc]. rewrite Hc. reflexivity.
  - intros Hc. rewrite Hc. reflexivity.
Qed.

Lemma rebinding_overwrites_with_warning_witness :
  let st1 := snd (__call__ n1 [VNode n2] [] empty) in
  fst (__call__ n1 [VList [VNode n3]] [("side", VNode n2)] st1) = Ret n1
  /\ log (snd (__call__ n1 [VList [VNode n3]] [("side", VNode n2)] st1))
     = [(msg_overwrite, n1)]
  /\ log st1 = [].
Proof.
  intros st1.
  destruct (rebinding_overwrites_with_warning st1 n1
              [VList [VNode n3]] [("side", VNode n2)])
    as (Hret & _ & Hwarn & _).
  - repeat constructor.
  - apply NoDup_singleton.
  - intros [He | []]. discriminate.
  - split; [exact Hret|]. split.
    + rewrite Hwarn; [reflexivity|]. eexists. reflexivity.
    + reflexivity.
Defined.

(** C7 at an input that breaks it: binding [n2] as the child of [n1]
    returns [n1], and [n2] is then a child of [n1], but [n1] is in no
    parents set of [n2]: the parents attribute of [n2] is still
    [None]. *)
Lemma parents_not_updated :
  let st1 := snd (__call__ n1 [VNode n2] [] empty) in
  fst (__call__ n1 [VNode n2] [] empty) = Ret n1
  /\ children_of st1 n1 = [n2]
  /\ _parents (get_obj (heap st1) n2) = None
  /\ ~ is_parent st1 n1 n2.
Proof.
  intros st1.
  assert (Hp : _parents (get_obj (heap st1) n2) = None) by reflexivity.
  repeat split; try reflexivity.
  intros (ps & Hps & _). rewrite Hp in Hps. discriminate.
Qed.

(** C7, as the code has it. A call that succeeds returns the node it
    was invoked on and stores the arguments as that node's children. It
    writes no parents attribute: for every node, the bound children
    included, the parents attribute after the call is the one before
    it, so a child that had no parents set still has none. *)
Theorem call_returns_self_parents_untouched (st st' : state)
    (self r : node) (args : list value) (kwargs : list (string * value)) :
  NoDup (map fst kwargs) ->
  __call__ self args kwargs st = (Ret r, st') ->
  r = self
  /\ _children (get_obj (heap st') self) = Some (args, kwargs)
  /\ (forall m, _parents (get_obj (heap st') m)
               = _parents (get_obj (heap st) m))
  /\ (forall c, In c (children_of st' self) ->
        _parents (get_obj (heap st) c) = None -> ~ is_parent st' self c).
Proof.
  intros Hnd Hcall.
  destruct (call_Ret self r args kwargs st st' Hcall)
    as (-> & Hall & _ & Hs).
  rewrite (call_flat self args kwargs st Hall Hnd Hs) in Hcall.
  injection Hcall as <-.
  assert (Hpar : forall m,
             _parents (get_obj (heap (set_children self (args, kwargs)
                                        (warned self st))) m)
             = _parents (get_obj (heap st) m)).
  { intros m. rewrite parents_set_children, heap_warned. reflexivity. }
  split; [reflexivity|].
  split; [apply (children_set_children self (args, kwargs))|].
  split; [exact Hpar|].
  intros c _ Hnone (ps & Hps & _). rewrite Hpar, Hnone in Hps. discriminate.
Qed.

Lemma call_returns_self_parents_untouched_witness :
  n1 = n1
  /\ _children (get_obj (heap (snd (__call__ n1 [VNode n2] [] empty))) n1)
     = Some ([VNode n2], []).
Proof.
  destruct (call_returns_self_parents_untouched empty
              (snd (__call__ n1 [VNode n2] [] empty)) n1 n1 [VNode n2] [])
    as (Hr & Hc & _).
  - constructor.
  - reflexivity.
  - split; [exact Hr | exact Hc].
Defined.

(** C8 on a bound node. [n1] is bound to a node, a list and a keyed
    dict that mention [n2] and [n3] several times. The flattened
    children are [n2; n3], each once, but [get_children] returns
    [None], for this node and for every other. *)
Theorem get_children_returns_None :
  let st1 := snd (__call__ n1
                    [VNode n2; VList [VNode n3; VNode n2]]
                    [("extra", VDict [(VStr "k", VNode n3)])] empty) in
  fst (__call__ n1
         [VNode n2; VList [VNode n3; VNode n2]]
         [("extra", VDict [(VStr "k", VNode n3)])] empty) = Ret n1
  /\ flattened_children st1 n1 = VList [VNode n2; VNode n3]
  /\ get_children n1 st1 = VNone
  /\ get_children n1 st1 <> flattened_children st1 n1
  /\ forall n st, get_children n st = VNone.
Proof.
  intros st1.
  assert (Hf : flattened_children st1 n1 = VList [VNode n2; VNode n3])
    by (vm_compute; reflexivity).
  repeat split; try reflexivity; try exact Hf.
  rewrite Hf. discriminate.
Qed.

(** A path that ends in [n] and does not start there can be taken in
    any relation that has the same edges out of every node but [n]. *)
Lemma tc_into_changed_node (R R' : relation node) (a n : node) :
  (forall x y, x <> n -> R x y -> R' x y) ->
  tc R a n -> a <> n -> tc R' a n.
Proof.
  intros Hsame Hpath. induction Hpath as [x z Hxz | x y z Hxy Hyz IH];
    intros Hne.
  - apply tc_once. apply Hsame; assumption.
  - destruct (decide (y = z)) as [->|Hyz'].
    + apply tc_once. apply Hsame; assumption.
    + eapply tc_l; [apply Hsame; eassumption | apply IH; assumption].
Qed.

(** C4 at an input that breaks it: [n2] is a child of [n1]; binding
    [n1] as a child of [n2] is accepted all the same, and the graph
    then has a cycle. *)
Lemma ancestor_binding_accepted :
  let st1 := snd (__call__ n1 [VNode n2] [] empty) in
  let st2 := snd (__call__ n2 [VList [VNode n1]] [] st1) in
  ancestor st1 n1 n2
  /\ fst (__call__ n2 [VList [VNode n1]] [] st1) = Ret n2
  /\ ~ raises (fst (__call__ n2 [VList [VNode n1]] [] st1))
  /\ edge st2 n2 n1
  /\ ancestor st2 n2 n2.
Proof.
  intros st1 st2.
  assert (H12 : edge st1 n1 n2) by (left; reflexivity).
  assert (H21 : edge st2 n2 n1) by (left; reflexivity).
  assert (H12' : edge st2 n1 n2) by (left; reflexivity).
  split; [apply tc_once; exact H12|].
  split; [reflexivity|].
  split; [intros [e He]; discriminate|].
  split; [exact H21|].
  eapply tc_l; [exact H21 | apply tc_once; exact H12'].
Qed.

(** C4, as the code has it. The call makes no ancestry check. When [a]
    is an ancestor of [n] and the acceptable arguments of a call on [n]
    (flat slots, keywords distinct and not named [self]) hold [a],
    directly or inside a flat collection, the call returns [n], the
    edge from [n] to [a] is recorded, and the graph then has a cycle
    through [n]. *)
Theorem ancestor_binding_not_checked (st : state) (n a : node)
    (args : list value) (kwargs : list (string * value)) :
  ancestor st a n ->
  Forall (fun v => flat_slot v = true) (args ++ map snd kwargs) ->
  NoDup (map fst kwargs) ->
  ~ In "self" (map fst kwargs) ->
  In a (flat_map slot_nodes (args ++ map snd kwargs)) ->
  fst (__call__ n args kwargs st) = Ret n
  /\ edge (snd (__call__ n args kwargs st)) n a
  /\ ancestor (snd (__call__ n args kwargs st)) n n.
Proof.
  intros Hanc Hall Hnd Hs Hin.
  rewrite (call_flat n args kwargs st Hall Hnd Hs). simpl.
  set (st' := set_children n (args, kwargs) (warned n st)).
  assert (Hedge : edge st' n a).
  { unfold edge, children_of, st'. rewrite children_set_children.
    exact Hin. }
  split; [reflexivity|]. split; [exact Hedge|].
  destruct (decide (a = n)) as [->|Hne].
  - apply tc_once. exact Hedge.
  - eapply tc_l; [exact Hedge|].
    apply (tc_into_changed_node (edge st)); [|exact Hanc | exact Hne].
    intros x y Hx Hxy. unfold edge, children_of, st' in *.
    rewrite children_set_children_ne by congruence.
    rewrite heap_warned. exact Hxy.
Qed.

Lemma ancestor_binding_not_checked_witness :
  let st1 := snd (__call__ n1 [VNode n2] [] empty) in
  ancestor st1 n1 n2
  /\ fst (__call__ n2 [VNode n1] [] st1) = Ret n2
  /\ ancestor (snd (__call__ n2 [VNode n1] [] st1)) n2 n2.
Proof.
  intros st1.
  assert (Hanc : ancestor st1 n1 n2) by (apply tc_once; left; reflexivity).
  destruct (ancestor_binding_not_checked st1 n2 n1 [VNode n1] [] Hanc)
    as (Hret & _ & Hcyc).
  - repeat constructor.
  - constructor.
  - intros [].
  - left. reflexivity.
  - split; [exact Hanc|]. split; [exact Hret | exact Hcyc].
Defined.

(** *** More on the call *)

Lemma check_arg_spec (v : value) :
  check_arg v = if flat_slot v then Ret v else Raise (error_of v).
Proof.
  destruct v; simpl; try reflexivity;
    match goal with
    | |- context [forallb ?f ?l] => destruct (forallb f l)
    end; reflexivity.
Qed.

Lemma loop_args_find (args acc : list value) :
  loop_args args acc
  = match List.find (fun v => negb (flat_slot v)) args with
    | Some v => Raise (error_of v)
    | None => Ret (acc ++ args)
    end.
Proof.
  revert acc. induction args as [|v rest IH]; intros acc; simpl.
  - rewrite app_nil_r. reflexivity.
  - rewrite check_arg_spec. destruct (flat_slot v); simpl; [|reflexivity].
    rewrite IH, <- app_assoc. reflexivity.
Qed.

Lemma loop_kwargs_find (kwargs acc : list (string * value)) :
  match List.find (fun v => negb (flat_slot v)) (map snd kwargs) with
  | Some v => loop_kwargs kwargs acc = Raise (error_of v)
  | None => exists k, loop_kwargs kwargs acc = Ret k
  end.
Proof.
  revert acc. induction kwargs as [|[key v] rest IH]; intros acc; simpl.
  - eauto.
  - rewrite check_arg_spec. destruct (flat_slot v); simpl; [|reflexivity].
    apply IH.
Qed.

Lemma find_app_first {A : Type} (p : A -> bool) (l1 l2 : list A) :
  List.find p (l1 ++ l2)
  = match List.find p l1 with
    | Some x => Some x
    | None => List.find p l2
    end.
Proof.
  induction l1 as [|x l1 IH]; simpl; [reflexivity|].
  destruct (p x); [reflexivity | exact IH].
Qed.

(** The heap a call leaves, in terms of what the two loops return. *)
Lemma heap_call (self : node) (args : list value)
    (kwargs : list (string * value)) (st : state) :
  heap (snd (__call__ self args kwargs st))
  = if takes_self kwargs then heap st
    else match loop_args args [], loop_kwargs kwargs [] with
         | Ret a, Ret k =>
             <[self := {| _children := Some (a, k);
                          _parents := _parents (get_obj (heap st) self) |}]>
               (heap st)
         | _, _ => heap st
         end.
Proof.
  unfold __call__. destruct (takes_self kwargs); [reflexivity|].
  unfold call_body.
  destruct (loop_args args []) as [a|e]; [|apply heap_warned].
  destruct (loop_kwargs kwargs []) as [k|e]; [|apply heap_warned].
  simpl. rewrite heap_warned. reflexivity.
Qed.

(** The log a call leaves is the one after the optional warning, when
    the body runs at all. *)
Lemma log_call (self : node) (args : list value)
    (kwargs : list (string * value)) (st : state) :
  log (snd (__call__ self args kwargs st))
  = if takes_self kwargs then log st else log (warned self st).
Proof.
  unfold __call__. destruct (takes_self kwargs); [reflexivity|].
  unfold call_body.
  destruct (loop_args args []) as [a|e]; [|reflexivity].
  destruct (loop_kwargs kwargs []) as [k|e]; reflexivity.
Qed.

Lemma call_succeeds_loops (self r : node) (args : list value)
    (kwargs : list (string * value)) (st : state) :
  fst (__call__ self args kwargs st) = Ret r ->
  exists k, loop_args args [] = Ret args /\ loop_kwargs kwargs [] = Ret k
            /\ takes_self kwargs = false.
Proof.
  unfold __call__. destruct (takes_self kwargs); [discriminate|].
  unfold call_body.
  destruct (loop_args args []) as [a|e] eqn:Ha; [|discriminate].
  destruct (loop_kwargs kwargs []) as [k|e]; [|discriminate].
  intros _. apply loop_args_Ret in Ha as [-> _]. eauto.
Qed.

(** What a call returns is decided by its arguments alone, in order.
    A keyword named [self] makes the call raise [TypeError], whatever
    the values are. Otherwise the first argument that is neither a node
    nor a flat collection of nodes, positional arguments before keyed
    ones, fixes the exception (the failed assertion for a collection,
    [ValueError] otherwise), and without such an argument the call
    returns the node. The state of the graph plays no part. *)
Theorem call_outcome (self : node) (args : list value)
    (kwargs : list (string * value)) (st : state) :
  fst (__call__ self args kwargs st)
  = if takes_self kwargs then Raise TypeError
    else match first_invalid args kwargs with
         | Some v => Raise (error_of v)
         | None => Ret self
         end.
Proof.
  unfold __call__. destruct (takes_self kwargs); [reflexivity|].
  unfold call_body, first_invalid. rewrite find_app_first, loop_args_find.
  destruct (List.find (fun v => negb (flat_slot v)) args) as [v|];
    [reflexivity|].
  pose proof (loop_kwargs_find kwargs []) as Hk.
  destruct (List.find (fun v => negb (flat_slot v)) (map snd kwargs)) as [v|].
  - rewrite Hk. reflexivity.
  - destruct Hk as [k ->]. reflexivity.
Qed.

(** A call on a node touches nothing else: whether it returns or
    raises, every other node is as before and the node's own parents
    attribute is as before. The log is the old one, followed by the
    overwrite warning for this node when its children were bound and
    the body ran, that is, when no keyword was named [self]. *)
Theorem call_frame (self : node) (args : list value)
    (kwargs : list (string * value)) (st : state) :
  (forall m, m <> self ->
     get_obj (heap (snd (__call__ self args kwargs st))) m
     = get_obj (heap st) m)
  /\ _parents (get_obj (heap (snd (__call__ self args kwargs st))) self)
     = _parents (get_obj (heap st) self)
  /\ log (snd (__call__ self args kwargs st))
     = log st ++ (if takes_self kwargs then []
                  else match _children (get_obj (heap st) self) with
                       | Some _ => [(msg_overwrite, self)]
                       | None => []
                       end).
Proof.
  rewrite heap_call, log_call.
  destruct (takes_self kwargs).
  { rewrite app_nil_r. repeat split. }
  split; [|split].
  - intros m Hm.
    destruct (loop_args args []) as [a|e]; [|reflexivity].
    destruct (loop_kwargs kwargs []) as [k|e]; [|reflexivity].
    rewrite get_obj_insert. destruct (decide (self = m)); [congruence|].
    reflexivity.
  - destruct (loop_args args []) as [a|e]; [|reflexivity].
    destruct (loop_kwargs kwargs []) as [k|e]; [|reflexivity].
    rewrite get_obj_insert. destruct (decide (self = self)); [|congruence].
    reflexivity.
  - unfold warned. destruct (_children (get_obj (heap st) self)); simpl.
    + reflexivity.
    + rewrite app_nil_r. reflexivity.
Qed.

Lemma call_frame_witness :
  let st1 := snd (__call__ n1 [VNode n2] [] empty) in
  get_obj (heap (snd (__call__ n2 [VNode n3] [] st1))) n1 = get_obj (heap st1) n1.
Proof.
  intros st1.
  apply (proj1 (call_frame n2 [VNode n3] [] st1)). discriminate.
Defined.

(** A rebinding that the body rejects still logs the overwrite
    warning, although nothing is overwritten: with no keyword named
    [self] the body runs, and its test for bound children comes before
    the arguments are checked, so the call raises, the node keeps the
    children it had, and the log has the warning. *)
Theorem rejected_rebinding_still_warns (st : state) (self : node)
    (args : list value) (kwargs : list (string * value)) (v : value) :
  ~ In "self" (map fst kwargs) ->
  is_Some (_children (get_obj (heap st) self)) ->
  In v (args ++ map snd kwargs) ->
  flat_slot v = false ->
  raises (fst (__call__ self args kwargs st))
  /\ _children (get_obj (heap (snd (__call__ self args kwargs st))) self)
     = _children (get_obj (heap st) self)
  /\ log (snd (__call__ self args kwargs st))
     = log st ++ [(msg_overwrite, self)].
Proof.
  intros Hs [c Hc] Hin Hv.
  assert (Hraise : exists e, loop_args args [] = Raise e
                    \/ exists a, loop_args args [] = Ret a
                                 /\ loop_kwargs kwargs [] = Raise e).
  { destruct (loop_args args []) as [a|e] eqn:Ha; [|eauto].
    apply loop_args_Ret in Ha as [_ Hflat].
    apply in_app_or in Hin as [Hin|Hin].
    - rewrite Forall_forall in Hflat. apply list_elem_of_In in Hin.
      rewrite (Hflat v Hin) in Hv. discriminate.
    - destruct (loop_kwargs_not_flat kwargs [] v Hin Hv) as (e & He & _).
      eauto. }
  rewrite heap_call, log_call, (call_no_self self args kwargs st Hs).
  apply takes_self_not_In in Hs. rewrite Hs.
  unfold call_body, warned.
  destruct Hraise as (e & [He | (a & Ha & He)]).
  - rewrite He, Hc. simpl. split; [exists e; reflexivity|].
    split; reflexivity.
  - rewrite Ha, He, Hc. simpl. split; [exists e; reflexivity|].
    split; reflexivity.
Qed.

Lemma rejected_rebinding_still_warns_witness :
  let st1 := snd (__call__ n1 [VNode n2] [] empty) in
  raises (fst (__call__ n1 [VStr "n3"] [] st1))
  /\ children_of (snd (__call__ n1 [VStr "n3"] [] st1)) n1 = [n2]
  /\ log (snd (__call__ n1 [VStr "n3"] [] st1)) = [(msg_overwrite, n1)].
Proof.
  intros st1.
  destruct (rejected_rebinding_still_warns st1 n1 [VStr "n3"] []
              (VStr "n3")) as (Hr & Hc & Hl).
  - intros [].
  - eexists. reflexivity.
  - left. reflexivity.
  - reflexivity.
  - split; [exact Hr|]. split; [|exact Hl].
    unfold children_of. rewrite Hc. reflexivity.
Defined.

(** A binding that holds no node at all (a call without arguments, or
    with empty collections only) still binds: the call returns the
    node, the node has no child, but its children count as bound, so
    the next call on it whose body runs (no keyword named [self]) logs
    the overwrite warning whatever its arguments are. *)
Theorem empty_binding_counts_as_bound (st : state) (n : node)
    (args : list value) (kwargs : list (string * value)) :
  acceptable (args, kwargs) ->
  flat_map slot_nodes (args ++ map snd kwargs) = [] ->
  fst (__call__ n args kwargs st) = Ret n
  /\ children_of (snd (__call__ n args kwargs st)) n = []
  /\ is_Some (_children (get_obj (heap (snd (__call__ n args kwargs st))) n))
  /\ forall args' kwargs',
       log (snd (__call__ n args' kwargs' (snd (__call__ n args kwargs st))))
       = log (snd (__call__ n args kwargs st))
         ++ (if takes_self kwargs' then [] else [(msg_overwrite, n)]).
Proof.
  intros (Hall & Hnd & Hs) Hnone. simpl in Hall, Hnd, Hs.
  rewrite (call_flat n args kwargs st Hall Hnd Hs). cbn [fst snd].
  set (st1 := set_children n (args, kwargs) (warned n st)).
  assert (Hc : _children (get_obj (heap st1) n) = Some (args, kwargs))
    by apply children_set_children.
  split; [reflexivity|].
  split; [unfold children_of; rewrite Hc; exact Hnone|].
  split; [rewrite Hc; eauto|].
  intros args' kwargs'. rewrite log_call.
  destruct (takes_self kwargs'); [rewrite app_nil_r; reflexivity|].
  unfold warned. rewrite Hc. reflexivity.
Qed.

Lemma empty_binding_counts_as_bound_witness :
  let st1 := snd (__call__ n1 [VList []] [] empty) in
  fst (__call__ n1 [VList []] [] empty) = Ret n1
  /\ children_of st1 n1 = []
  /\ log (snd (__call__ n1 [VNode n2] [] st1)) = [(msg_overwrite, n1)].
Proof.
  intros st1.
  destruct (empty_binding_counts_as_bound empty n1 [VList []] [])
    as (Hr & Hc & _ & Hl).
  - split; [repeat constructor | split; [constructor | intros []]].
  - reflexivity.
  - split; [exact Hr|]. split; [exact Hc|]. exact (Hl [VNode n2] []).
Defined.

(** The last binding wins and leaves no trace of the one before: the
    objects after an accepted call are the same whether or not another
    call on the node, accepted or rejected, came first. *)
Theorem last_binding_wins (st : state) (n r : node)
    (args1 args2 : list value) (kwargs1 kwargs2 : list (string * value)) :
  fst (__call__ n args2 kwargs2 st) = Ret r ->
  heap (snd (__call__ n args2 kwargs2 (snd (__call__ n args1 kwargs1 st))))
  = heap (snd (__call__ n args2 kwargs2 st)).
Proof.
  intros Hok.
  destruct (call_succeeds_loops n r args2 kwargs2 st Hok)
    as (k2 & Ha2 & Hk2 & Hs2).
  rewrite (heap_call n args2 kwargs2), Ha2, Hk2, Hs2.
  rewrite (heap_call n args2 kwargs2 st), Ha2, Hk2, Hs2.
  rewrite (heap_call n args1 kwargs1 st).
  destruct (takes_self kwargs1); [reflexivity|].
  destruct (loop_args args1 []) as [a1|e]; [|reflexivity].
  destruct (loop_kwargs kwargs1 []) as [k1|e]; [|reflexivity].
  rewrite get_obj_insert. destruct (decide (n = n)); [|congruence].
  simpl. apply insert_insert_eq.
Qed.

Lemma last_binding_wins_witness :
  heap (snd (__call__ n1 [VNode n3] []
               (snd (__call__ n1 [VNode n2] [] empty))))
  = heap (snd (__call__ n1 [VNode n3] [] empty)).
Proof.
  exact (last_binding_wins empty n1 n1 [VNode n2] [VNode n3] [] [] eq_refl).
Defined.

(** A node can be bound as its own child: when the acceptable
    arguments of a call on a node (flat slots, keywords distinct and
    not named [self]) hold the node itself, directly or inside a flat
    collection, the call returns and leaves a loop on the node. *)
Theorem self_binding_accepted (st : state) (n : node)
    (args : list value) (kwargs : list (string * value)) :
  acceptable (args, kwargs) ->
  In n (flat_map slot_nodes (args ++ map snd kwargs)) ->
  fst (__call__ n args kwargs st) = Ret n
  /\ edge (snd (__call__ n args kwargs st)) n n
  /\ ancestor (snd (__call__ n args kwargs st)) n n.
Proof.
  intros (Hall & Hnd & Hs) Hin. simpl in Hall, Hnd, Hs.
  rewrite (call_flat n args kwargs st Hall Hnd Hs). simpl.
  assert (Hedge : edge (set_children n (args, kwargs) (warned n st)) n n).
  { unfold edge, children_of. rewrite children_set_children. exact Hin. }
  split; [reflexivity|]. split; [exact Hedge|]. apply tc_once. exact Hedge.
Qed.

Lemma self_binding_accepted_witness :
  fst (__call__ n1 [VTuple [VNode n2; VNode n1]] [] empty) = Ret n1
  /\ ancestor (snd (__call__ n1 [VTuple [VNode n2; VNode n1]] [] empty)) n1 n1.
Proof.
  destruct (self_binding_accepted empty n1 [VTuple [VNode n2; VNode n1]] [])
    as (Hr & _ & Ha).
  - split; [repeat constructor | split; [constructor | intros []]].
  - right. left. reflexivity.
  - split; [exact Hr | exact Ha].
Defined.

Lemma last_cons_default {A : Type} (l : list A) (x d : A) :
  List.last (x :: l) d = List.last l x.
Proof.
  revert x d. induction l as [|y l IH]; intros x d; [reflexivity|].
  change (List.last (x :: y :: l) d) with (List.last (y :: l) d).
  rewrite (IH y d). symmetry. apply IH.
Qed.

Lemma call_all_bound (n : node) (bs : list binding) :
  forall (st : state) (c : children),
    Forall acceptable bs ->
    _children (get_obj (heap st) n) = Some c ->
    log (call_all n bs st) = log st ++ List.repeat (msg_overwrite, n) (length bs)
    /\ _children (get_obj (heap (call_all n bs st)) n) = Some (List.last bs c).
Proof.
  induction bs as [|[a k] rest IH]; intros st c Hall Hc.
  - simpl. rewrite app_nil_r. split; [reflexivity | exact Hc].
  - inversion Hall as [|? ? (Hflat & Hnd & Hs) Hrest]; subst.
    simpl in Hflat, Hnd, Hs.
    change (call_all n ((a, k) :: rest) st)
      with (call_all n rest (snd (__call__ n a k st))).
    assert (Hc1 : _children (get_obj (heap (snd (__call__ n a k st))) n)
                  = Some (a, k)).
    { rewrite (call_flat n a k st Hflat Hnd Hs). simpl.
      apply (children_set_children n (a, k)). }
    destruct (IH (snd (__call__ n a k st)) (a, k) Hrest Hc1) as [Hlog Hch].
    rewrite Hlog, Hch, log_call, last_cons_default.
    apply takes_self_not_In in Hs. rewrite Hs.
    unfold warned. rewrite Hc. cbn [log warning].
    rewrite <- app_assoc. split; reflexivity.
Qed.

(** A run of calls with acceptable arguments (flat slots, keywords
    distinct and not named [self]) on a node whose children are unbound
    logs one warning per call after the first, and the node ends up
    with the arguments of the last call. *)
Theorem run_of_bindings (st : state) (n : node) (b : binding)
    (rest : list binding) :
  _children (get_obj (heap st) n) = None ->
  Forall acceptable (b :: rest) ->
  log (call_all n (b :: rest) st)
  = log st ++ List.repeat (msg_overwrite, n) (length rest)
  /\ _children (get_obj (heap (call_all n (b :: rest) st)) n)
     = Some (List.last rest b).
Proof.
  intros Hnone Hall. destruct b as [a k].
  inversion Hall as [|? ? (Hflat & Hnd & Hs) Hrest]; subst.
  simpl in Hflat, Hnd, Hs.
  change (call_all n ((a, k) :: rest) st)
    with (call_all n rest (snd (__call__ n a k st))).
  assert (Hc1 : _children (get_obj (heap (snd (__call__ n a k st))) n)
                = Some (a, k)).
  { rewrite (call_flat n a k st Hflat Hnd Hs). simpl.
    apply (children_set_children n (a, k)). }
  destruct (call_all_bound n rest (snd (__call__ n a k st)) (a, k) Hrest Hc1)
    as [Hlog Hch].
  rewrite Hlog, Hch, log_call.
  apply takes_self_not_In in Hs. rewrite Hs.
  unfold warned. rewrite Hnone.
  split; reflexivity.
Qed.

Lemma run_of_bindings_witness :
  log (call_all n1 [([VNode n2], []); ([], []); ([VNode n3], [])] empty)
  = [(msg_overwrite, n1); (msg_overwrite, n1)]
  /\ children_of
       (call_all n1 [([VNode n2], []); ([], []); ([VNode n3], [])] empty) n1
     = [n3].
Proof.
  destruct (run_of_bindings empty n1 ([VNode n2], [])
              [([], []); ([VNode n3], [])]) as [Hl Hc].
  - reflexivity.
  - repeat (constructor;
            [split; [repeat constructor | split; [constructor | intros []]]|]).
    constructor.
  - split; [exact Hl|]. exact (f_equal child_nodes Hc).
Defined.

End GraphSpec.

(** ** The ordering engine *)

Module EngineSpec.
Import Engine.

Local Open Scope list_scope.
Local Open Scope nat_scope.

(** *** The cost model *)

Lemma step_window (t : nat) (w : option nat) (u : Unit) :
  snd (step (t, w) u) = window u.
Proof.
  unfold step, window. destruct (is_background u), w; reflexivity.
Qed.

Lemma scan_after (rest : list Unit) (f : Unit) (t : nat) :
  fst (fold_left step rest (t, window f)) + absorbed (f :: rest)
  = t + total_cost rest.
Proof.
  revert f t. induction rest as [|b rest IH]; intros f t.
  - simpl. unfold absorbed, total_cost. simpl. lia.
  - change (fold_left step (b :: rest) (t, window f))
      with (fold_left step rest (step (t, window f) b)).
    destruct (step (t, window f) b) as [t' w'] eqn:Hs.
    assert (Hw : w' = window b)
      by (rewrite <- (step_window t (window f) b), Hs; reflexivity).
    subst w'. specialize (IH b t').
    assert (Ht : t' + (if negb (is_background f) && is_background b
                       then Nat.min (cost b) (cost f) else 0)
                 = t + cost b).
    { unfold step, window in Hs.
      destruct (is_background f), (is_background b); simpl in *;
        injection Hs as <-; lia. }
    assert (Ha : absorbed (f :: b :: rest)
                 = (if negb (is_background f) && is_background b
                    then Nat.min (cost b) (cost f) else 0)
                   + absorbed (b :: rest)).
    { unfold absorbed.
      change (absorptions (f :: b :: rest))
        with (if negb (is_background f) && is_background b
              then (f, b) :: absorptions (b :: rest)
              else absorptions (b :: rest)).
      destruct (negb (is_background f) && is_background b); reflexivity. }
    rewrite Ha. unfold total_cost in *. simpl. lia.
Qed.

(** The scan and the closed formula agree on every ordering. *)
Lemma elapsed_plus_absorbed (ord : list Unit) :
  elapsed_time ord + absorbed ord = total_cost ord.
Proof.
  destruct ord as [|f rest]; [reflexivity|].
  unfold elapsed_time.
  change (fold_left step (f :: rest) (0, None))
    with (fold_left step rest (step (0, None) f)).
  assert (Hs : step (0, None) f = (cost f, window f)).
  { unfold step, window. destruct (is_background f); reflexivity. }
  rewrite Hs, (scan_after rest f (cost f)). reflexivity.
Qed.

(** Every absorption pairs a background unit with the foreground unit
    placed immediately before it. *)
Lemma absorptions_adjacent (ord : list Unit) (f b : Unit) :
  In (f, b) (absorptions ord) ->
  is_background f = false /\ is_background b = true
  /\ exists l1 l2, ord = l1 ++ f :: b :: l2.
Proof.
  induction ord as [|x rest IH]; [intros []|].
  destruct rest as [|y rest']; [intros []|].
  change (absorptions (x :: y :: rest'))
    with (if negb (is_background x) && is_background y
          then (x, y) :: absorptions (y :: rest')
          else absorptions (y :: rest')).
  intros Hin.
  assert (Hrest : In (f, b) (absorptions (y :: rest')) ->
                  is_background f = false /\ is_background b = true
                  /\ exists l1 l2, x :: y :: rest' = l1 ++ f :: b :: l2).
  { intros H. destruct (IH H) as (Hf & Hb & l1 & l2 & He).
    split; [exact Hf|]. split; [exact Hb|].
    exists (x :: l1), l2. rewrite He. reflexivity. }
  destruct (negb (is_background x) && is_background y) eqn:Hxy;
    [|exact (Hrest Hin)].
  destruct Hin as [[= <- <-]|Hin]; [|exact (Hrest Hin)].
  apply andb_true_iff in Hxy as [Hx Hy]. apply negb_true_iff in Hx.
  split; [exact Hx|]. split; [exact Hy|].
  exists [], rest'. reflexivity.
Qed.

(** *** What the search returns *)

Lemma picks_perm {A : Type} (l : list A) (p : A * list A) :
  In p (picks l) -> Permutation (fst p :: snd p) l.
Proof.
  revert p. induction l as [|x rest IH]; intros p; simpl; [intros []|].
  intros [<- | Hin]; [reflexivity|].
  apply in_map_iff in Hin as (q & <- & Hq). simpl.
  rewrite perm_swap. apply perm_skip. apply IH. exact Hq.
Qed.

Lemma picks_complete {A : Type} (l : list A) (x : A) :
  In x l -> exists p, In p (picks l) /\ fst p = x.
Proof.
  induction l as [|y rest IH]; simpl; [intros []|].
  intros [-> | Hin].
  - exists (x, rest). split; [left|]; reflexivity.
  - destruct (IH Hin) as (p & Hp & Hx).
    exists (fst p, y :: snd p). split; [|exact Hx].
    right. apply in_map_iff. exists p. split; [reflexivity | exact Hp].
Qed.

Lemma respects_nil (g : dag) : respects g [].
Proof. intros l1 u l2 He. destruct l1; discriminate. Qed.

Lemma respects_snoc (g : dag) (placed : list Unit) (u : Unit) :
  respects g placed -> is_ready g placed u = true ->
  respects g (placed ++ [u]).
Proof.
  intros Hres Hready l1 v l2 He.
  destruct l2 as [|x l2' _] using rev_ind.
  - apply app_inj_tail in He as [-> ->]. exact Hready.
  - change (l1 ++ v :: l2' ++ [x]) with (l1 ++ (v :: l2') ++ [x]) in He.
    rewrite app_assoc in He. apply app_inj_tail in He as [-> _].
    apply (Hres l1 v l2'). reflexivity.
Qed.

Lemma improve_good (g : dag) (c : candidate) (best : option candidate) :
  good g c -> all_good g best -> all_good g (improve c best).
Proof.
  intros Hc Hb c'. unfold improve. destruct best as [b|].
  - destruct (better c b); intros [= <-]; [exact Hc | apply Hb; reflexivity].
  - intros [= <-]. exact Hc.
Qed.

Lemma search_S (g : dag) (depth : nat) (placed : list Unit)
    (x : Unit) (xs : list Unit) (best : option candidate) :
  search (S depth) g placed (x :: xs) best
  = fold_left (branch g depth placed) (picks (x :: xs)) best.
Proof. reflexivity. Qed.

Lemma search_good (g : dag) (depth : nat) :
  forall placed remaining best,
    Permutation (placed ++ remaining) (units g) ->
    respects g placed ->
    all_good g best ->
    all_good g (search depth g placed remaining best).
Proof.
  induction depth as [|depth IH]; intros placed remaining best Hperm Hres Hbest.
  - destruct remaining as [|x xs]; simpl; [|exact Hbest].
    apply improve_good; [|exact Hbest].
    rewrite app_nil_r in Hperm. repeat split; assumption.
  - destruct remaining as [|x xs].
    { simpl. apply improve_good; [|exact Hbest].
      rewrite app_nil_r in Hperm. repeat split; assumption. }
    rewrite search_S. remember (x :: xs) as remaining eqn:Hrem.
    assert (Hpicks : forall p, In p (picks remaining) ->
                       Permutation (fst p :: snd p) remaining)
      by (intros p; apply picks_perm).
    clear Hrem. revert best Hbest.
    induction (picks remaining) as [|p ps IHps]; intros best Hbest;
      [exact Hbest|].
    simpl. apply IHps; [intros q Hq; apply Hpicks; right; exact Hq|].
    unfold branch.
    destruct (is_ready g placed (fst p)) eqn:Hready; [|exact Hbest].
    destruct (pruned (placed ++ [fst p]) best); [exact Hbest|].
    apply IH; [| apply respects_snoc; assumption | exact Hbest].
    rewrite <- app_assoc. simpl.
    rewrite <- Hperm. apply Permutation_app_head.
    apply Hpicks. left. reflexivity.
Qed.

Lemma is_ready_edge (g : dag) (placed : list Unit) (u : Unit) (a : nat) :
  is_ready g placed u = true -> In (a, uid u) (deps g) ->
  exists ua, In ua placed /\ uid ua = a.
Proof.
  unfold is_ready. rewrite forallb_forall. intros Hall Hin.
  specialize (Hall (a, uid u) Hin). simpl in Hall.
  rewrite Nat.eqb_refl in Hall. simpl in Hall.
  apply existsb_exists in Hall as (ua & Hua & He).
  apply Nat.eqb_eq in He. eauto.
Qed.

Lemma good_topological (g : dag) (c : candidate) :
  wf_dag g -> good g c -> topological_order g (fst c).
Proof.
  intros [Hnd Hedges] (Hperm & Hres & _). split; [exact Hperm|]. split.
  - assert (Hids : Permutation (map uid (fst c)) (map uid (units g)))
      by (apply Permutation_map; exact Hperm).
    rewrite Hids. exact Hnd.
  - intros a b Hab. destruct (Hedges a b Hab) as [_ Hb].
    apply in_map_iff in Hb as (ub & <- & Hub).
    apply (Permutation_in _ (Permutation_sym Hperm)) in Hub.
    apply in_split in Hub as (l1 & l3 & Hord).
    pose proof (Hres l1 ub l3 Hord) as Hready.
    destruct (is_ready_edge g l1 ub a Hready Hab) as (ua & Hua & <-).
    apply in_split in Hua as (l1a & l2 & ->).
    exists l1a, ua, l2, ub, l3. rewrite Hord, <- app_assoc.
    split; [reflexivity|]. split; reflexivity.
Qed.

(** *** The search finds an ordering of every acyclic graph *)

Section Walks.

Variable R : relation nat.

Lemma walk_reach (t : list nat) (h y : nat) :
  walk R (h :: t) -> In y t -> tc R h y.
Proof.
  revert h. induction t as [|x t IH]; intros h; [intros _ []|].
  intros [Hhx Hw] [-> | Hin].
  - apply tc_once. exact Hhx.
  - eapply tc_l; [exact Hhx | apply IH; assumption].
Qed.

Lemma walk_NoDup_or_cycle (l : list nat) :
  walk R l -> List.NoDup l \/ exists x, tc R x x.
Proof.
  induction l as [|h t IH]; [intros _; left; constructor|].
  intros Hw.
  assert (Hwt : walk R t) by (destruct t; [exact I | apply Hw]).
  destruct (IH Hwt) as [Hnd | Hcyc]; [|right; exact Hcyc].
  destruct (in_dec Nat.eq_dec h t) as [Hin | Hnin].
  - right. exists h. apply (walk_reach t h h Hw Hin).
  - left. constructor; assumption.
Qed.

(** In a non-empty finite set in which every element has a predecessor,
    walks of every length exist. *)
Lemma long_walk (S : list nat) (n : nat) :
  S <> [] ->
  (forall b, In b S -> exists a, In a S /\ R a b) ->
  exists l, length l = Datatypes.S n /\ incl l S /\ walk R l.
Proof.
  intros Hne Hpred. induction n as [|n IH].
  - destruct S as [|b S']; [congruence|].
    exists [b]. split; [reflexivity|]. split; [|exact I].
    intros x [<- | []]. left. reflexivity.
  - destruct IH as (l & Hlen & Hincl & Hw).
    destruct l as [|h t]; [discriminate|].
    destruct (Hpred h (Hincl h (or_introl eq_refl))) as (a & Ha & Hah).
    exists (a :: h :: t). split; [simpl in *; lia|]. split.
    + intros x [<- | Hx]; [exact Ha | apply Hincl; exact Hx].
    + split; assumption.
Qed.

Lemma predecessors_cycle (S : list nat) :
  S <> [] ->
  (forall b, In b S -> exists a, In a S /\ R a b) ->
  exists x, tc R x x.
Proof.
  intros Hne Hpred.
  destruct (long_walk S (length S) Hne Hpred) as (l & Hlen & Hincl & Hw).
  destruct (walk_NoDup_or_cycle l Hw) as [Hnd | Hcyc]; [|exact Hcyc].
  pose proof (List.NoDup_incl_length Hnd Hincl). lia.
Qed.

End Walks.

Lemma not_ready_edge (g : dag) (placed : list Unit) (u : Unit) :
  is_ready g placed u = false ->
  exists a, In (a, uid u) (deps g) /\ ~ In a (map uid placed).
Proof.
  unfold is_ready. intros Hf.
  assert (Hex : existsb (fun e : nat * nat =>
             negb (implb (Nat.eqb (snd e) (uid u))
                         (existsb (fun p => Nat.eqb (uid p) (fst e)) placed)))
             (deps g) = true).
  { clear -Hf. induction (deps g) as [|e es IH]; simpl in *; [discriminate|].
    apply andb_false_iff in Hf as [Hf | Hf].
    - rewrite Hf. reflexivity.
    - rewrite (IH Hf). apply orb_true_r. }
  apply existsb_exists in Hex as ([a b] & Hin & He). simpl in He.
  destruct (Nat.eqb_spec b (uid u)) as [-> | Hne]; [|discriminate].
  simpl in He. apply negb_true_iff in He.
  exists a. split; [exact Hin|].
  intros Ha. apply in_map_iff in Ha as (p & Hp & Hpin).
  assert (Ht : existsb (fun p => Nat.eqb (uid p) a) placed = true).
  { apply existsb_exists. exists p. split; [exact Hpin|].
    apply Nat.eqb_eq. exact Hp. }
  congruence.
Qed.

(** In an acyclic graph, as long as units remain, one of them is
    ready. *)
Lemma exists_ready (g : dag) (placed remaining : list Unit) :
  wf_dag g -> acyclic g ->
  Permutation (placed ++ remaining) (units g) ->
  remaining <> [] ->
  exists u, In u remaining /\ is_ready g placed u = true.
Proof.
  intros [_ Hedges] Hacyc Hperm Hne.
  destruct (existsb (is_ready g placed) remaining) eqn:Hex.
  { apply existsb_exists in Hex as (u & Hu & Hr). eauto. }
  exfalso.
  assert (Hnone : forall u, In u remaining -> is_ready g placed u = false).
  { intros u Hu. destruct (is_ready g placed u) eqn:Hr; [|reflexivity].
    assert (existsb (is_ready g placed) remaining = true)
      by (apply existsb_exists; eauto).
    congruence. }
  destruct (predecessors_cycle (fun x y => In (x, y) (deps g))
              (map uid remaining)) as (x & Hx).
  - destruct remaining; [congruence | discriminate].
  - intros b Hb. apply in_map_iff in Hb as (u & <- & Hu).
    destruct (not_ready_edge g placed u (Hnone u Hu)) as (a & Hedge & Hna).
    exists a. split; [|exact Hedge].
    destruct (Hedges a (uid u) Hedge) as [Ha _].
    apply in_map_iff in Ha as (ua & <- & Hua).
    apply (Permutation_in _ (Permutation_sym Hperm)) in Hua.
    apply in_app_or in Hua as [Hua | Hua].
    + exfalso. apply Hna. apply in_map. exact Hua.
    + apply in_map. exact Hua.
  - exact (Hacyc x Hx).
Qed.

Lemma improve_is_Some (c : candidate) (best : option candidate) :
  is_Some (improve c best).
Proof.
  unfold improve. destruct best as [b|]; [destruct (better c b)|]; eauto.
Qed.

(** A branch, and so a whole level, never loses the best ordering it
    was given. *)
Lemma search_keeps (g : dag) (depth : nat) :
  forall placed remaining best,
    is_Some best -> is_Some (search depth g placed remaining best).
Proof.
  induction depth as [|depth IH]; intros placed remaining best Hbest;
    (destruct remaining as [|x xs]; [apply improve_is_Some|]).
  - exact Hbest.
  - rewrite search_S. revert best Hbest.
    induction (picks (x :: xs)) as [|p ps IHps]; intros best Hbest;
      [exact Hbest|].
    simpl. apply IHps. unfold branch.
    destruct (is_ready g placed (fst p)); [|exact Hbest].
    destruct (pruned (placed ++ [fst p]) best); [exact Hbest|].
    apply IH. exact Hbest.
Qed.

Lemma fold_branch_keeps (g : dag) (depth : nat) (placed : list Unit)
    (ps : list (Unit * list Unit)) (best : option candidate) :
  is_Some best -> is_Some (fold_left (branch g depth placed) ps best).
Proof.
  revert best. induction ps as [|p ps IH]; intros best Hbest; [exact Hbest|].
  simpl. apply IH. unfold branch.
  destruct (is_ready g placed (fst p)); [|exact Hbest].
  destruct (pruned (placed ++ [fst p]) best); [exact Hbest|].
  apply search_keeps. exact Hbest.
Qed.

Lemma search_finds (g : dag) (depth : nat) :
  wf_dag g -> acyclic g ->
  forall placed remaining best,
    Permutation (placed ++ remaining) (units g) ->
    length remaining <= depth ->
    is_Some (search depth g placed remaining best).
Proof.
  intros Hwf Hacyc.
  induction depth as [|depth IH]; intros placed remaining best Hperm Hlen;
    (destruct remaining as [|x xs]; [apply improve_is_Some|]).
  - simpl in Hlen. lia.
  - rewrite search_S. remember (x :: xs) as remaining eqn:Hrem.
    destruct (exists_ready g placed remaining Hwf Hacyc Hperm)
      as (u & Hu & Hready); [subst; discriminate|].
    destruct (picks_complete remaining u Hu) as (p0 & Hp0 & Hfst).
    assert (Hpicks : forall p, In p (picks remaining) ->
                       Permutation (fst p :: snd p) remaining)
      by (intros p; apply picks_perm).
    clear Hrem. revert best.
    induction (picks remaining) as [|p ps IHps]; intros best;
      [destruct Hp0|].
    simpl. destruct Hp0 as [-> | Hp0].
    + apply fold_branch_keeps. unfold branch. rewrite Hfst, Hready.
      destruct (pruned (placed ++ [u]) best) eqn:Hpr.
      * unfold pruned in Hpr. destruct best; [eauto | discriminate].
      * apply IH.
        -- rewrite <- app_assoc. simpl. rewrite <- Hperm.
           apply Permutation_app_head. rewrite <- Hfst.
           apply Hpicks. left. reflexivity.
        -- assert (Hl : length (fst p0 :: snd p0) = length remaining)
             by (apply Permutation_length, Hpicks; left; reflexivity).
           simpl in Hl. lia.
    + apply IHps; [exact Hp0|].
      intros q Hq. apply Hpicks. right. exact Hq.
Qed.

Lemma order_search_Ordering (g : dag) (ord : list Unit) (total : nat) :
  order_search g = Ordering ord total -> good g (ord, total).
Proof.
  unfold order_search.
  destruct (search (length (units g)) g [] (units g) None) as [[o t]|] eqn:Hs;
    [|discriminate].
  intros [= <- <-].
  apply (search_good g (length (units g)) [] (units g) None);
    [reflexivity | apply respects_nil | intros c; discriminate | exact Hs].
Qed.

(** C2. For a graph whose units have distinct identifiers and whose
    edges run between units: if the graph is acyclic the Order Search
    returns an ordering, and every ordering it returns is a topological
    order, that is, a rearrangement of the units in which each
    identifier occurs once and the source of every dependency edge
    comes before its target. *)
Theorem order_search_topological (g : dag) :
  wf_dag g ->
  (acyclic g -> exists ord total, order_search g = Ordering ord total)
  /\ (forall ord total,
        order_search g = Ordering ord total -> topological_order g ord).
Proof.
  intros Hwf. split.
  - intros Hacyc.
    destruct (search_finds g (length (units g)) Hwf Hacyc [] (units g) None)
      as [[ord total] Hs]; [reflexivity | lia |].
    exists ord, total. unfold order_search. rewrite Hs. reflexivity.
  - intros ord total Hs.
    apply (good_topological g (ord, total) Hwf).
    apply order_search_Ordering. exact Hs.
Qed.

Lemma sample_wf : wf_dag sample.
Proof.
  split.
  - apply (bool_decide_unpack _). vm_compute. exact I.
  - intros a b [[= <- <-] | []]. simpl. tauto.
Qed.

Lemma sample_acyclic : acyclic sample.
Proof.
  assert (Hedge : forall x y, In (x, y) (deps sample) -> x = 1 /\ y = 3).
  { intros x y [[= <- <-] | []]. split; reflexivity. }
  assert (Hfrom : forall x y, tc (fun x y => In (x, y) (deps sample)) x y ->
                              x = 1 /\ y = 3).
  { intros x y Hxy. induction Hxy as [x y Hxy | x y z Hxy _ IH].
    - exact (Hedge x y Hxy).
    - destruct (Hedge x y Hxy) as [_ Hy]. destruct IH as [Hy' _]. lia. }
  intros a Ha. destruct (Hfrom a a Ha). lia.
Qed.

Lemma order_search_topological_witness :
  (exists ord total, order_search sample = Ordering ord total)
  /\ order_search sample = Ordering [fg 2 4; bg 1 3; fg 3 2] 6
  /\ topological_order sample [fg 2 4; bg 1 3; fg 3 2].
Proof.
  assert (Hs : order_search sample = Ordering [fg 2 4; bg 1 3; fg 3 2] 6)
    by (vm_compute; reflexivity).
  split; [exact (proj1 (order_search_topological sample sample_wf)
                   sample_acyclic)|].
  split; [exact Hs|].
  exact (proj2 (order_search_topological sample sample_wf) _ _ Hs).
Defined.

(** C3. The time the Order Search reports with an ordering is the
    elapsed time of that ordering, and it equals the sum of the unit
    costs minus, for each absorption, the smaller of the background
    unit's cost and the cost of the foreground unit that absorbs it.
    The absorptions do not overlap: each pairs a background unit with
    the foreground unit placed immediately before it. For the ordering
    [foreground 5, background 3] the elapsed time is 5 and for
    [foreground 2, background 3] it is 3. *)
Theorem reported_time_absorption (g : dag) (ord : list Unit) (total : nat) :
  order_search g = Ordering ord total ->
  total = elapsed_time ord
  /\ total = total_cost ord - absorbed ord
  /\ absorbed ord <= total_cost ord
  /\ (forall f b, In (f, b) (absorptions ord) ->
        is_background f = false /\ is_background b = true
        /\ exists l1 l2, ord = l1 ++ f :: b :: l2)
  /\ elapsed_time [fg 1 5; bg 2 3] = 5
  /\ elapsed_time [fg 1 2; bg 2 3] = 3.
Proof.
  intros Hs. apply order_search_Ordering in Hs as (_ & _ & Ht).
  simpl in Ht. pose proof (elapsed_plus_absorbed ord) as Hsum.
  split; [exact Ht|]. split; [lia|]. split; [lia|].
  split; [intros f b; apply absorptions_adjacent|].
  split; reflexivity.
Qed.

Lemma reported_time_absorption_witness :
  order_search absorbed_fully = Ordering [fg 1 5; bg 2 3] 5
  /\ order_search absorbed_partly = Ordering [fg 1 2; bg 2 3] 3
  /\ 5 = total_cost [fg 1 5; bg 2 3] - absorbed [fg 1 5; bg 2 3]
  /\ 3 = total_cost [fg 1 2; bg 2 3] - absorbed [fg 1 2; bg 2 3].
Proof.
  assert (H1 : order_search absorbed_fully = Ordering [fg 1 5; bg 2 3] 5)
    by (vm_compute; reflexivity).
  assert (H2 : order_search absorbed_partly = Ordering [fg 1 2; bg 2 3] 3)
    by (vm_compute; reflexivity).
  split; [exact H1|]. split; [exact H2|]. split.
  - exact (proj1 (proj2 (reported_time_absorption _ _ _ H1))).
  - exact (proj1 (proj2 (reported_time_absorption _ _ _ H2))).
Defined.

(** Under the other wording of section 4.5 (absorption by the nearest
    following foreground unit) nothing is saved on [foreground 5,
    background 3], and the total would be 8, not the published 5. *)
Lemma following_reading_misses_example :
  total_cost [fg 1 5; bg 2 3] - absorbed_following [fg 1 5; bg 2 3] = 8.
Proof. reflexivity. Qed.

End EngineSpec.
